(** * Shell Calc (calc.c): the expression evaluator and the expression generator

    A shallow embedding of [evaluate], of its helpers and of
    [generateExpressions] / [genExpressionPart], followed by the theorems that
    settle the properties stated for them.

    Conventions.
    - A C [double] is a primitive binary64 [float]; [+ - * /] are the IEEE
      operations.  The C library functions whose result is fixed by the C
      standard ([strtoll], [strtod], [fmod], [sqrt], [sprintf]) are modelled
      here; [pow], [sin] and [cos] are taken from a [libm] record.
    - A C string is a [list ascii] without the terminating NUL.
    - [tokens[50]] and [operators[50]] are lists of length 50 read and
      written by index.
    - The global [errorFlag] is passed in; an outcome says whether it was set. *)

From Stdlib Require Import ZArith List String Ascii Floats Lia Bool.
From stdpp Require Import base list.
Import ListNotations.

Local Open Scope nat_scope.

(* ===================================================================== *)
(** ** Characters *)

Definition chars (s : string) : list ascii := list_ascii_of_string s.

(** The loop [for (i = 0; i < strlen(set); i++) if (c == set[i]) ...]. *)
Definition inSet (set : string) (c : ascii) : bool :=
  existsb (Ascii.eqb c) (chars set).

Definition isNumeric (c : ascii) : bool := inSet "0123456789xX-." c.
Definition isOper (c : ascii) : bool := inSet "+-*/^%" c.
Definition isAlpha (c : ascii) : bool := inSet "abcdefghijklmnopqrstuvwxyz" c.

Definition NUL : ascii := Ascii.zero.

(** [strlen]: a C string ends at its first NUL. *)
Fixpoint cstring (s : list ascii) : list ascii :=
  match s with
  | [] => []
  | c :: s' => if Ascii.eqb c NUL then [] else c :: cstring s'
  end.

(** Longest prefix of [s] whose characters satisfy [p], and what follows. *)
Fixpoint span (p : ascii -> bool) (s : list ascii) : list ascii * list ascii :=
  match s with
  | [] => ([], [])
  | c :: s' =>
      if p c then let '(a, b) := span p s' in (c :: a, b) else ([], s)
  end.

(* ===================================================================== *)
(** ** The C library *)

Module Libc.

Local Open Scope Z_scope.

(** int64_t to double (round to nearest, ties to even). *)
Definition double_of_Z (z : Z) : float :=
  SF2Prim (binary_normalize prec emax z 0 false).

Definition LLONG_MAX : Z := 9223372036854775807.
Definition LLONG_MIN : Z := -9223372036854775808.

Definition code (c : ascii) : Z := Z.of_N (N_of_ascii c).

(** Value of a digit character in bases up to 36. *)
Definition digit_val (c : ascii) : option Z :=
  let n := code c in
  if (48 <=? n) && (n <=? 57) then Some (n - 48)
  else if (97 <=? n) && (n <=? 122) then Some (n - 87)
  else if (65 <=? n) && (n <=? 90) then Some (n - 55)
  else None.

Definition is_digit (base : Z) (c : ascii) : bool :=
  match digit_val c with
  | Some d => d <? base
  | None => false
  end.

(** Value of a digit string read left to right, starting from [acc]. *)
Fixpoint digits_val (base : Z) (acc : Z) (ds : list ascii) : Z :=
  match ds with
  | [] => acc
  | c :: ds' => digits_val base (base * acc + default 0 (digit_val c)) ds'
  end.

Definition is_x (c : ascii) : bool := Ascii.eqb c "x" || Ascii.eqb c "X".

(** Optional sign of a numeric string: [(negative, rest)]. *)
Definition sign (s : list ascii) : bool * list ascii :=
  match s with
  | c :: s' =>
      if Ascii.eqb c "-" then (true, s')
      else if Ascii.eqb c "+" then (false, s')
      else (false, s)
  | [] => (false, s)
  end.

Definition clamp (z : Z) : Z := Z.max LLONG_MIN (Z.min LLONG_MAX z).

(** [strtoll(s, &end, 0)], called at a character that is not white space:
    the converted value and the unread rest.  Base 16 after [0x] followed by
    a hexadecimal digit, base 8 after [0], base 10 otherwise; the value
    saturates; without any digit nothing is read and the value is 0. *)
Definition strtoll (s : list ascii) : Z * list ascii :=
  let '(neg, s1) := sign s in
  let '(base, s2) :=
    match s1 with
    | z :: x :: h :: _ =>
        if Ascii.eqb z "0" && is_x x && is_digit 16 h
        then (16, skipn 2 s1) else if Ascii.eqb z "0" then (8, s1) else (10, s1)
    | z :: _ => if Ascii.eqb z "0" then (8, s1) else (10, s1)
    | [] => (10, s1)
    end%Z in
  let '(ds, rest) := span (is_digit base) s2 in
  match ds with
  | [] => (0%Z, s)
  | _ =>
      let v := digits_val base 0 ds in
      (clamp (if neg then - v else v), rest)
  end.

(** The double nearest to [n / d] for positive [n] and [d], with sign [neg]:
    the quotient is taken with at least 55 bits and the remainder decides
    the rounding, as in a correctly rounded division. *)
Definition double_of_ratio (neg : bool) (n d : Z) : float :=
  if (n =? 0)%Z then (if neg then (-0)%float else 0%float)
  else
    let s := Z.max 0 (Z.log2 d + 56 - Z.log2 n) in
    let '(q, r) := Z.div_eucl (n * 2 ^ s) d in
    let loc := if (r =? 0)%Z then loc_Exact else loc_Inexact (2 * r ?= d)%Z in
    SF2Prim (binary_round_aux prec emax neg q (- s) loc).

(** The double nearest to [m * b ^ e] for [m >= 0]. *)
Definition double_of_scaled (neg : bool) (m b e : Z) : float :=
  if (0 <=? e)%Z then double_of_ratio neg (m * b ^ e) 1
  else double_of_ratio neg m (b ^ (- e)).

(** Optional exponent part: the letter [lo] or [up], an optional
    sign and at least one decimal digit; otherwise nothing is read. *)
Definition exponent (lo up : ascii) (s : list ascii) : Z * list ascii :=
  match s with
  | c :: s1 =>
      if Ascii.eqb c lo || Ascii.eqb c up then
        let '(neg, s2) := sign s1 in
        let '(ds, rest) := span (is_digit 10) s2 in
        match ds with
        | [] => (0%Z, s)
        | _ => let v := digits_val 10 0 ds in ((if neg then - v else v)%Z, rest)
        end
      else (0%Z, s)
  | [] => (0%Z, s)
  end.

(** Mantissa [int.frac] in base [base]: [(digits of int, digits of frac, rest)]. *)
Definition mantissa (base : Z) (s : list ascii)
  : list ascii * list ascii * list ascii :=
  let '(ip, s1) := span (is_digit base) s in
  match s1 with
  | c :: s2 =>
      if Ascii.eqb c "." then
        let '(fp, s3) := span (is_digit base) s2 in (ip, fp, s3)
      else (ip, [], s1)
  | [] => (ip, [], s1)
  end.

(** [strtod(s, &end)] in the C locale, called at a character that is not
    white space and on a string that does not spell an infinity or a NaN
    (the evaluator calls it at a numeric-class character only): decimal
    [digits.digits e+-digits] or hexadecimal [0x hex.hex p+-digits], with at
    least one mantissa digit; correctly rounded.  Without a mantissa digit
    nothing is read and the value is 0. *)
Definition strtod (s : list ascii) : float * list ascii :=
  let '(neg, s1) := sign s in
  let hex :=
    match s1 with
    | z :: x :: s2 =>
        if Ascii.eqb z "0" && is_x x then
          let '(ip, fp, s3) := mantissa 16 s2 in
          match ip ++ fp with
          | [] => None
          | ds =>
              let '(e, rest) := exponent "p" "P" s3 in
              Some (double_of_scaled neg (digits_val 16 0 ds) 2
                      (e - 4 * Z.of_nat (length fp)), rest)
          end
        else None
    | _ => None
    end in
  match hex with
  | Some r => r
  | None =>
      let '(ip, fp, s3) := mantissa 10 s1 in
      match ip ++ fp with
      | [] => (0%float, s)
      | ds =>
          let '(e, rest) := exponent "e" "E" s3 in
          (double_of_scaled neg (digits_val 10 0 ds) 10
             (e - Z.of_nat (length fp)), rest)
      end
  end.

(** [fmod(x, y)]: the exact remainder [x - n*y] with [n] the quotient
    truncated toward zero; it has the sign of [x]. *)
Definition fmod (x y : float) : float :=
  match Prim2SF x, Prim2SF y with
  | S754_nan, _ | _, S754_nan => nan
  | S754_infinity _, _ => nan
  | _, S754_zero _ => nan
  | S754_zero _, _ => x
  | S754_finite _ _ _, S754_infinity _ => x
  | S754_finite sx mx ex, S754_finite _ my ey =>
      let e := Z.min ex ey in
      let r := ((Zpos mx * 2 ^ (ex - e)) mod (Zpos my * 2 ^ (ey - e)))%Z in
      SF2Prim (binary_normalize prec emax (cond_Zopp sx r) e sx)
  end.

(** The part of the mathematical library whose results are not fixed bit
    for bit by the C standard. *)
Record libm := {
  pow : float -> float -> float;
  sin : float -> float;
  cos : float -> float
}.

End Libc.

Import Libc.

(* ===================================================================== *)
(** ** Outcomes of a call of [evaluate] *)

(** The diagnostics of calc.c that set [errorFlag]. *)
Inductive error :=
| EmptyExpression              (* "evaluate() called with an empty expression" *)
| TokenCapacityExceeded        (* "Too many tokens in expression!" *)
| UnterminatedGroup            (* "... found without closing parenthesis" *)
| UnknownFunction              (* "Unsupported function" *)
| UnknownIdentifier            (* "Unrecognized variable name" *)
| ExpectedOperator             (* "... followed by non-operator character" *)
| NoTokenProduced              (* "No numerical tokens found" *)
| OperatorWithoutToken         (* "Found an operator, but no tokens" *)
| InvalidOperatorInLastPhase   (* "Found invalid operator in last phase" *)
| NonOperatorInList.           (* "a non-operator character got into operators list" *)

(** The two places that call [cleanExit(true)]. *)
Inductive fatal :=
| RecursionLimitExceeded
| TokenizerRunaway.

Inductive outcome :=
| Done (v : float)   (** [v] returned, [errorFlag] as it was on entry *)
| Fail (e : error)   (** diagnostic printed, [errorFlag = true], 0.0 returned *)
| Abort (f : fatal)  (** the process is aborted *)
| Undefined.         (** a fixed-size buffer is overrun *)

(** What the caller of [evaluate] observes: the value returned and the
    value of [errorFlag] afterwards, when the call returns. *)
Definition returned (o : outcome) : option float :=
  match o with
  | Done v => Some v
  | Fail _ => Some 0%float
  | Abort _ | Undefined => None
  end.

Definition flagAfter (errorFlag : bool) (o : outcome) : option bool :=
  match o with
  | Done _ => Some errorFlag
  | Fail _ => Some true
  | Abort _ | Undefined => None
  end.

(* ===================================================================== *)
(** ** Constants and functions *)

Fixpoint str_eqb (a b : list ascii) : bool :=
  match a, b with
  | [], [] => true
  | x :: a', y :: b' => Ascii.eqb x y && str_eqb a' b'
  | _, _ => false
  end.

(** [strcmp(a, lit) == 0] *)
Definition strcmp0 (a : list ascii) (lit : string) : bool := str_eqb a (chars lit).

(** The doubles nearest to 3.1415926535897932384626433 and
    2.7182818284590452353602874. *)
Definition M_PI : float := 0x1.921fb54442d18p+1.
Definition M_E : float := 0x1.5bf0a8b145769p+1.

Definition getConst (varStr : list ascii) : float :=
  if strcmp0 varStr "pi" then M_PI
  else if strcmp0 varStr "e" then M_E
  else 0.

(** [None]: the function is not supported; [errorFlag] is set and 0.0
    returned. *)
Definition doFunc (m : libm) (funcStr : list ascii) (arg : float) : option float :=
  if strcmp0 funcStr "sin" then Some (sin m arg)
  else if strcmp0 funcStr "cos" then Some (cos m arg)
  else if strcmp0 funcStr "sqrt" then Some (PrimFloat.sqrt arg)
  else None.

(* ===================================================================== *)
(** ** The tokenizing pass of [evaluate] *)

#[global] Instance float_inhabited : Inhabited float := populate 0%float.
#[global] Instance ascii_inhabited : Inhabited ascii := populate NUL.

(** The locals of [evaluate] that the two passes share: the scan position
    (the part of [expr] from [ptr] to [exprEnd]), the two arrays and the
    token count. *)
Record locals := Locals {
  ptr : list ascii;
  tokens : list float;
  operators : list ascii;
  numTokens : nat
}.

Definition setPtr (p : list ascii) (st : locals) : locals :=
  Locals p (tokens st) (operators st) (numTokens st).

(** How a block of one loop iteration ends. *)
Inductive ctl :=
| Go (st : locals)        (** falls through to the next statement *)
| Continue (st : locals)  (** [continue] *)
| Return (o : outcome).   (** [return] *)

Definition andThen (c : ctl) (k : locals -> ctl) : ctl :=
  match c with
  | Go st => k st
  | Continue st => Continue st
  | Return o => Return o
  end.

(** [tokens[numTokens++] = v]; the array has 50 slots. *)
Definition pushToken (v : float) (st : locals) : ctl :=
  if 50 <=? numTokens st then Return Undefined
  else Go (Locals (ptr st) (<[numTokens st := v]> (tokens st)) (operators st)
             (S (numTokens st))).

Definition openParen (c : ascii) : bool := Ascii.eqb c "(".
Definition closeParen (c : ascii) : bool := Ascii.eqb c ")".

Definition nest (pLvl : nat) (c : ascii) : nat :=
  let p := if openParen c then S pLvl else pLvl in
  if closeParen c then pred p else p.

(** Lines 548-555: the argument of a function call.  From the character
    after the opening parenthesis: the text copied to [funcArg], the final
    [pLvl] and the position after the loop. *)
Fixpoint scanArg (pLvl : nat) (tmp : list ascii) : list ascii * nat * list ascii :=
  match tmp with
  | [] => ([], pLvl, [])
  | c :: tmp' =>
      if pLvl =? 0 then ([], pLvl, tmp)
      else
        let p := nest pLvl c in
        let '(arg, p', rest) := scanArg p tmp' in
        (if p =? 0 then arg else c :: arg, p', rest)
  end.

(** Lines 616-651: a parenthesized group.  From the character after the
    opening parenthesis: the text between the parentheses, the final [pLvl]
    and the position after the closing parenthesis. *)
Fixpoint scanGroup (pLvl : nat) (tmp : list ascii) : list ascii * nat * list ascii :=
  match tmp with
  | [] => ([], pLvl, [])
  | c :: tmp' =>
      let p := nest pLvl c in
      if p =? 0 then ([], p, tmp')
      else let '(sub, p', rest) := scanGroup p tmp' in (c :: sub, p', rest)
  end.

Section Evaluate.

Variable m : libm.

(** [ev sub] is the recursive call [evaluate(sub, depth + 1)]. *)
Variable ev : list ascii -> outcome.
Variable errorFlag : bool.

(** Lines 528-611: a variable or a function. *)
Definition nameToken (st : locals) : ctl :=
  match ptr st with
  | c :: _ =>
      if isAlpha c then
        let '(vfStr, tmp) := span isAlpha (ptr st) in
        if 256 <=? length vfStr then Return Undefined
        else
          andThen
            (match tmp with
             | c1 :: tmp1 =>
                 if openParen c1 then
                   let '(funcArg, pLvl, tmp2) := scanArg 1 tmp1 in
                   if 1024 <=? length funcArg then Return Undefined
                   else if negb (pLvl =? 0) then Return (Fail UnterminatedGroup)
                   else
                     match ev funcArg with
                     | Done argVal =>
                         if errorFlag then Return (Done 0)
                         else
                           match doFunc m vfStr argVal with
                           | Some v => pushToken v (setPtr tmp2 st)
                           | None => Return (Fail UnknownFunction)
                           end
                     | o => Return o
                     end
                 else
                   let constVal := getConst vfStr in
                   if PrimFloat.eqb constVal 0 then Return (Fail UnknownIdentifier)
                   else pushToken constVal (setPtr tmp st)
             | [] =>
                 let constVal := getConst vfStr in
                 if PrimFloat.eqb constVal 0 then Return (Fail UnknownIdentifier)
                 else pushToken constVal (setPtr tmp st)
             end)
            (fun st' =>
               match ptr st' with
               | c' :: _ =>
                   if negb (isOper c') then Return (Fail ExpectedOperator) else Go st'
               | [] => Continue st'
               end)
      else Go st
  | [] => Go st
  end.

(** Lines 663-689: a numeric token.  The run of numeric-class characters
    only decides [isFloat]; the conversion reads from [ptr] and leaves it
    after the characters it has used.  [readNumber] gives the value stored
    and the new [ptr]. *)
Definition readNumber (p : list ascii) : float * list ascii :=
  let '(run, _) := span isNumeric p in
  let isFloat := existsb (Ascii.eqb ".") run in
  if isFloat then strtod p
  else let '(t, rest) := strtoll p in (double_of_Z t, rest).

Definition numberToken (st : locals) : ctl :=
  let '(t, rest) := readNumber (ptr st) in pushToken t (setPtr rest st).

(** Lines 614-689: a subexpression, else a numeric token. *)
Definition groupOrNumber (st : locals) : ctl :=
  match ptr st with
  | c :: tmp =>
      if openParen c then
        let '(subExpr, pLvl, rest) := scanGroup 1 tmp in
        if negb (pLvl =? 0) then Return (Fail UnterminatedGroup)
        else if 4096 <=? length subExpr then Return Undefined
        else
          match ev subExpr with
          | Done v =>
              andThen (pushToken v (setPtr rest st))
                (fun st' =>
                   if errorFlag then Return (Done 0)
                   else match ptr st' with
                        | [] => Continue st'
                        | _ :: _ => Go st'
                        end)
          | o => Return o
          end
      else if isNumeric c then numberToken st
      else Go st
  | [] => Go st
  end.

(** Lines 691-722: a token must have been added; the operator after it. *)
Definition grabOperator (numTokensAtStart : nat) (st : locals) : ctl :=
  if numTokens st - numTokensAtStart =? 0 then Return (Fail NoTokenProduced)
  else
    match ptr st with
    | c :: ptr' =>
        if negb (isOper c) then Return (Fail ExpectedOperator)
        else if numTokens st <? 1 then Return (Fail OperatorWithoutToken)
        else Go (Locals ptr' (tokens st) (<[numTokens st - 1 := c]> (operators st))
                   (numTokens st))
    | [] => Go st
    end.

(** One iteration of the loop [while (ptr < exprEnd)], after the runaway
    check. *)
Definition tokenStep (st : locals) : ctl :=
  if 50 <=? numTokens st then Return (Fail TokenCapacityExceeded)
  else
    andThen (nameToken st) (fun st1 =>
    andThen (groupOrNumber st1) (fun st2 =>
    grabOperator (numTokens st) st2)).

(** The loop [while (ptr < exprEnd)].  [left] is [10000 - loopCount]: the
    iteration that would make [loopCount] exceed 10000 aborts. *)
Fixpoint tokenize (left : nat) (st : locals) : outcome + locals :=
  match ptr st with
  | [] => inr st
  | _ :: _ =>
      match left with
      | 0 => inl (Abort TokenizerRunaway)
      | S left' =>
          match tokenStep st with
          | Go st' | Continue st' => tokenize left' st'
          | Return o => inl o
          end
      end
  end.

End Evaluate.

(* ===================================================================== *)
(** ** The reduction pass of [evaluate] *)

(** [for (j = from; j < from + n; j++) a[j] = a[j + 1];] *)
Fixpoint shiftLeft {A} `{Inhabited A} (n from : nat) (a : list A) : list A :=
  match n with
  | 0 => a
  | S n' => shiftLeft n' (S from) (<[from := a !!! S from]> a)
  end.

Definition isChar (c : ascii) (lit : ascii) : bool := Ascii.eqb c lit.

Section Reduce.

Variable m : libm.

(** The [switch (oper)] of lines 773-855: the value stored in [tokens[i]],
    or [None] in the [default] case. *)
Definition applyOper (oper : ascii) (t1 t2 : float) : option float :=
  if isChar oper "^" then Some (pow m t1 t2)
  else if isChar oper "*" || isChar oper "/" || isChar oper "%" then
    let r := 0%float in
    let r := if isChar oper "*" then (t1 * t2)%float else r in
    let r := if isChar oper "/" then (t1 / t2)%float else r in
    let r := if isChar oper "%" then fmod t1 t2 else r in
    Some r
  else if isChar oper "+" || isChar oper "-" then
    let r := 0%float in
    let r := if isChar oper "+" then (t1 + t2)%float else r in
    let r := if isChar oper "-" then (t1 - t2)%float else r in
    Some r
  else None.

(** The pair at [i] is replaced by [r]: the tokens after it and the
    operators from [i + 1] on move one slot to the left. *)
Definition collapse (i : nat) (r : float) (st : locals) : locals :=
  Locals (ptr st)
    (shiftLeft (numTokens st - 1 - (i + 1)) (i + 1) (<[i := r]> (tokens st)))
    (shiftLeft (numTokens st - 2 - i) i (operators st))
    (numTokens st - 1).

(** The loop [for (i = 0; i < numTokens - 1; i++)] of one phase, from index
    [i] on.  [k] is [numTokens - 1 - i], the number of iterations left: an
    iteration either skips the pair ([i] grows) or reduces it ([numTokens]
    shrinks, and [i--] followed by [i++] leaves [i] where it is). *)
Fixpoint sweep (evalPhase k i : nat) (st : locals) : outcome + locals :=
  match k with
  | 0 => inr st
  | S k' =>
      let t1 := tokens st !!! i in
      let t2 := tokens st !!! (i + 1) in
      let oper := operators st !!! i in
      if (evalPhase =? 0) && negb (isChar oper "^") then sweep evalPhase k' (i + 1) st
      else if (evalPhase =? 1)
              && negb (isChar oper "*") && negb (isChar oper "/") && negb (isChar oper "%")
      then sweep evalPhase k' (i + 1) st
      else if (evalPhase =? 2) && negb (isChar oper "+") && negb (isChar oper "-")
      then inl (Fail InvalidOperatorInLastPhase)
      else
        match applyOper oper t1 t2 with
        | Some r => sweep evalPhase k' i (collapse i r st)
        | None => inl (Fail NonOperatorInList)
        end
  end.

(** One phase.  [numTokens - 1] is computed on [uint32_t]: with no token it
    wraps around and the loop reads past the arrays. *)
Definition phase (evalPhase : nat) (st : locals) : outcome + locals :=
  if numTokens st =? 0 then inl Undefined
  else sweep evalPhase (numTokens st - 1) 0 st.

(** The loop [while (evalPhase < 3)] and the final [return tokens[0]]. *)
Definition reduce (st : locals) : outcome :=
  match phase 0 st with
  | inl o => o
  | inr st1 =>
      match phase 1 st1 with
      | inl o => o
      | inr st2 =>
          match phase 2 st2 with
          | inl o => o
          | inr st3 => Done (tokens st3 !!! 0)
          end
      end
  end.

End Reduce.

(* ===================================================================== *)
(** ** [evaluate] *)

Definition initLocals (expr : list ascii) : locals :=
  Locals expr (replicate 50 0%float) (replicate 50 NUL) 0.

Definition runawayLimit : nat := 100 * 100.  (* 10000 *)

Section EvaluateRec.

Variable m : libm.
Variable errorFlag : bool.

(** The body of [evaluate] with [self] for the function called on
    subexpressions and function arguments. *)
Definition evaluateBody (self : list ascii -> nat -> outcome)
    (expr : list ascii) (depth : nat) : outcome :=
  if length expr <? 1 then Fail EmptyExpression
  else if 1000 <? depth then Abort RecursionLimitExceeded
  else
    match tokenize m (fun sub => self sub (depth + 1)) errorFlag runawayLimit
            (initLocals expr) with
    | inl o => o
    | inr st => reduce m st
    end.

(** [calls] bounds the nesting of calls.  A call at a depth above 1000
    aborts before it recurses, so [S (1001 - depth)] is always enough. *)
Fixpoint evaluateRec (calls : nat) (expr : list ascii) (depth : nat) : outcome :=
  match calls with
  | 0 => Abort RecursionLimitExceeded
  | S calls' => evaluateBody (evaluateRec calls') expr depth
  end.

(** [evaluate(expr, depth)] on a C string. *)
Definition evaluate (expr : list ascii) (depth : nat) : outcome :=
  evaluateRec (S (1001 - depth)) (cstring expr) depth.

End EvaluateRec.

(** The call of [main]: [errorFlag] is clear and [depth] is 0. *)
Definition calc (m : libm) (expr : string) : outcome :=
  evaluate m false (chars expr) 0.

(** A reference [libm] for concrete runs: [pow] with an exponent that is a
    natural number below 2^53 is the repeated product, which is exact
    whenever every partial product is representable; [sin] and [cos] are
    left at their leading terms and are not used for values. *)
Definition powNat (x y : float) : float :=
  match Prim2SF y with
  | S754_zero _ => 1%float
  | S754_finite false my ey =>
      if (0 <=? ey)%Z || (Z.land (Zpos my) (2 ^ (- ey) - 1) =? 0)%Z
      then Z.iter (Z.shiftl (Zpos my) ey) (fun r => (r * x)%float) 1%float
      else nan
  | _ => nan
  end.

Definition refLibm : libm := {| pow := powNat; sin := fun x => x; cos := fun _ => 1%float |}.

(* ===================================================================== *)
(** ** The reduction pass seen on a chain of values *)

(** The tokens in use and the operators between them: the first token and
    the list of (operator, token) pairs after it. *)
Definition chainOf (A : Type) : Type := A * list (ascii * A).
Definition chain : Type := chainOf float.

(** Two chains joined by an operator. *)
Definition joinChain {A} (c : chainOf A) (oper : ascii) (c' : chainOf A) : chainOf A :=
  (fst c, snd c ++ (oper, fst c') :: snd c').

Definition mapChain {A B} (g : A -> B) (c : chainOf A) : chainOf B :=
  (g (fst c), map (fun x => (fst x, g (snd x))) (snd c)).

Definition values (c : chain) : list float := fst c :: map snd (snd c).
Definition opers (c : chain) : list ascii := map fst (snd c).

Section ReduceChain.

Variable m : libm.

(** [sweep] on the chain: [acc] is the token at the current index, [rest]
    what lies to its right. *)
Fixpoint chainSweep (evalPhase : nat) (acc : float) (rest : list (ascii * float))
  : outcome + chain :=
  match rest with
  | [] => inr (acc, [])
  | (oper, t2) :: rest' =>
      let skip :=
        match chainSweep evalPhase t2 rest' with
        | inl o => inl o
        | inr (a, r) => inr (acc, (oper, a) :: r)
        end in
      if (evalPhase =? 0) && negb (isChar oper "^") then skip
      else if (evalPhase =? 1)
              && negb (isChar oper "*") && negb (isChar oper "/") && negb (isChar oper "%")
      then skip
      else if (evalPhase =? 2) && negb (isChar oper "+") && negb (isChar oper "-")
      then inl (Fail InvalidOperatorInLastPhase)
      else
        match applyOper m oper acc t2 with
        | Some r => chainSweep evalPhase r rest'
        | None => inl (Fail NonOperatorInList)
        end
  end.

Definition chainPhase (evalPhase : nat) (c : chain) : outcome + chain :=
  chainSweep evalPhase (fst c) (snd c).

Definition chainReduce (c : chain) : outcome :=
  match chainPhase 0 c with
  | inl o => o
  | inr c1 =>
      match chainPhase 1 c1 with
      | inl o => o
      | inr c2 =>
          match chainPhase 2 c2 with
          | inl o => o
          | inr c3 => Done (fst c3)
          end
      end
  end.

End ReduceChain.

(** The locals hold the chain [c]: its tokens and operators fill the first
    slots of the two arrays. *)
Definition holds (st : locals) (c : chain) : Prop :=
  length (tokens st) = 50 /\ length (operators st) = 50
  /\ numTokens st = length (values c) /\ numTokens st <= 50
  /\ take (numTokens st) (tokens st) = values c
  /\ take (numTokens st - 1) (operators st) = opers c.

(* ===================================================================== *)
(** ** Expressions and their value by precedence *)

(** The usual grammar of arithmetic expressions, every tier associating to
    the left:
    an expression is a term, or an expression, [+] or [-], and a term;
    a term is a factor, or a term, one of [* / %], and a factor;
    a factor is an atom, or a factor, [^] and an atom;
    an atom is a literal or an expression in parentheses. *)
Inductive addop := Plus | Minus.
Inductive mulop := Times | Divide | Modulo.

Inductive atom :=
| Num (text : list ascii) (val : float)
| Paren (e : expr)
with factor :=
| Atom (a : atom)
| Pow (f : factor) (a : atom)
with term :=
| Factor (f : factor)
| Mul (t : term) (o : mulop) (f : factor)
with expr :=
| Term (t : term)
| Add (e : expr) (o : addop) (t : term).

Definition addChar (o : addop) : ascii :=
  match o with Plus => "+"%char | Minus => "-"%char end.

Definition mulChar (o : mulop) : ascii :=
  match o with Times => "*"%char | Divide => "/"%char | Modulo => "%"%char end.

(** The text of an expression. *)
Fixpoint printAtom (a : atom) : list ascii :=
  match a with
  | Num text _ => text
  | Paren e => "("%char :: printExpr e ++ [")"%char]
  end
with printFactor (f : factor) : list ascii :=
  match f with
  | Atom a => printAtom a
  | Pow f a => printFactor f ++ "^"%char :: printAtom a
  end
with printTerm (t : term) : list ascii :=
  match t with
  | Factor f => printFactor f
  | Mul t o f => printTerm t ++ mulChar o :: printFactor f
  end
with printExpr (e : expr) : list ascii :=
  match e with
  | Term t => printTerm t
  | Add e o t => printExpr e ++ addChar o :: printTerm t
  end.

Section Value.

Variable m : libm.

(** The value of an expression: [^] is [pow], [%] is [fmod], the others are
    the operations on doubles. *)
Fixpoint valueAtom (a : atom) : float :=
  match a with
  | Num _ val => val
  | Paren e => valueExpr e
  end
with valueFactor (f : factor) : float :=
  match f with
  | Atom a => valueAtom a
  | Pow f a => pow m (valueFactor f) (valueAtom a)
  end
with valueTerm (t : term) : float :=
  match t with
  | Factor f => valueFactor f
  | Mul t Times f => (valueTerm t * valueFactor f)%float
  | Mul t Divide f => (valueTerm t / valueFactor f)%float
  | Mul t Modulo f => fmod (valueTerm t) (valueFactor f)
  end
with valueExpr (e : expr) : float :=
  match e with
  | Term t => valueTerm t
  | Add e Plus t => (valueExpr e + valueTerm t)%float
  | Add e Minus t => (valueExpr e - valueTerm t)%float
  end.

End Value.

(** The number of operands at the outermost level. *)
Fixpoint operandsFactor (f : factor) : nat :=
  match f with
  | Atom _ => 1
  | Pow f _ => S (operandsFactor f)
  end.

Fixpoint operandsTerm (t : term) : nat :=
  match t with
  | Factor f => operandsFactor f
  | Mul t _ f => operandsTerm t + operandsFactor f
  end.

Fixpoint operands (e : expr) : nat :=
  match e with
  | Term t => operandsTerm t
  | Add e _ t => operands e + operandsTerm t
  end.

(** How deep the parentheses nest. *)
Fixpoint nestingAtom (a : atom) : nat :=
  match a with
  | Num _ _ => 0
  | Paren e => S (nesting e)
  end
with nestingFactor (f : factor) : nat :=
  match f with
  | Atom a => nestingAtom a
  | Pow f a => Nat.max (nestingFactor f) (nestingAtom a)
  end
with nestingTerm (t : term) : nat :=
  match t with
  | Factor f => nestingFactor f
  | Mul t _ f => Nat.max (nestingTerm t) (nestingFactor f)
  end
with nesting (e : expr) : nat :=
  match e with
  | Term t => nestingTerm t
  | Add e _ t => Nat.max (nesting e) (nestingTerm t)
  end.

(** What may follow a token: the end of the text or an operator. *)
Definition follows (rest : list ascii) : bool :=
  match rest with
  | [] => true
  | c :: _ => isOper c
  end.

Definition plain (c : ascii) : bool :=
  negb (Ascii.eqb c NUL) && negb (openParen c) && negb (closeParen c).

(** [text] is a numeric literal of value [val]: it starts with a character
    that enters the numeric branch and not the name branch, it has no
    parenthesis and no NUL, and wherever a token may end after it the
    conversion reads exactly [text] and gives [val]. *)
Definition literal (text : list ascii) (val : float) : Prop :=
  match text with
  | c :: _ => isAlpha c = false /\ isNumeric c = true
  | [] => False
  end
  /\ forallb plain text = true
  /\ forall rest, follows rest = true -> readNumber (text ++ rest) = (val, rest).

(** Every literal is one, every group has at most 50 operands and fits the
    4096-byte buffer it is copied to. *)
Fixpoint wfAtom (a : atom) : Prop :=
  match a with
  | Num text val => literal text val
  | Paren e => wfExpr e /\ operands e <= 50 /\ length (printExpr e) < 4096
  end
with wfFactor (f : factor) : Prop :=
  match f with
  | Atom a => wfAtom a
  | Pow f a => wfFactor f /\ wfAtom a
  end
with wfTerm (t : term) : Prop :=
  match t with
  | Factor f => wfFactor f
  | Mul t _ f => wfTerm t /\ wfFactor f
  end
with wfExpr (e : expr) : Prop :=
  match e with
  | Term t => wfTerm t
  | Add e _ t => wfExpr e /\ wfTerm t
  end.

(** The operands of an expression at its outermost level and the operators
    between them, from left to right. *)
Fixpoint atomsFactor (f : factor) : chainOf atom :=
  match f with
  | Atom a => (a, [])
  | Pow f a => joinChain (atomsFactor f) "^" (a, [])
  end.

Fixpoint atomsTerm (t : term) : chainOf atom :=
  match t with
  | Factor f => atomsFactor f
  | Mul t o f => joinChain (atomsTerm t) (mulChar o) (atomsFactor f)
  end.

Fixpoint atomsExpr (e : expr) : chainOf atom :=
  match e with
  | Term t => atomsTerm t
  | Add e o t => joinChain (atomsExpr e) (addChar o) (atomsTerm t)
  end.

(** The text of a chain of operand texts. *)
Definition textOf (c : chainOf (list ascii)) : list ascii :=
  fst c ++ flat_map (fun x => fst x :: snd x) (snd c).

Section Tiers.

Variable m : libm.

(** The chain of an expression once its factors are reduced, and once its
    terms are. *)
Fixpoint factorsTerm (t : term) : chain :=
  match t with
  | Factor f => (valueFactor m f, [])
  | Mul t o f => joinChain (factorsTerm t) (mulChar o) (valueFactor m f, [])
  end.

Fixpoint factorsExpr (e : expr) : chain :=
  match e with
  | Term t => factorsTerm t
  | Add e o t => joinChain (factorsExpr e) (addChar o) (factorsTerm t)
  end.

Fixpoint termsExpr (e : expr) : chain :=
  match e with
  | Term t => (valueTerm m t, [])
  | Add e o t => joinChain (termsExpr e) (addChar o) (valueTerm m t, [])
  end.

End Tiers.

(** The operators of the three tiers. *)
Definition tier (evalPhase : nat) (oper : ascii) : bool :=
  match evalPhase with
  | 0 => isChar oper "^"
  | 1 => isChar oper "*" || isChar oper "/" || isChar oper "%"
  | _ => isChar oper "+" || isChar oper "-"
  end.

(** The operators a chain may still hold when phase [evalPhase] starts. *)
Definition tiersFrom (evalPhase : nat) (oper : ascii) : bool :=
  match evalPhase with
  | 0 => tier 0 oper || tier 1 oper || tier 2 oper
  | 1 => tier 1 oper || tier 2 oper
  | 2 => tier 2 oper
  | _ => false
  end.

(** The parentheses of [s] match, [lvl] of them being open at its start. *)
Fixpoint balancedFrom (lvl : nat) (s : list ascii) : bool :=
  match s with
  | [] => lvl =? 0
  | c :: s' =>
      if openParen c then balancedFrom (S lvl) s'
      else if closeParen c then
        match lvl with
        | 0 => false
        | S l => balancedFrom l s'
        end
      else balancedFrom lvl s'
  end.

Definition balanced (s : list ascii) : bool := balancedFrom 0 s.

(** An operand the tokenizer turns into the token [val]: a literal, or a
    group whose text [ev] evaluates to [val]. *)
Definition operand (ev : list ascii -> outcome) (text : list ascii) (val : float) : Prop :=
  literal text val
  \/ exists inner,
       text = "("%char :: inner ++ [")"%char]
       /\ balanced inner = true /\ length inner < 4096 /\ ev inner = Done val.

(** [P] holds of every element of the chain. *)
Definition chainAll {A} (P : A -> Prop) (c : chainOf A) : Prop :=
  P (fst c) /\ Forall (fun x => P (snd x)) (snd c).

(** Induction over the four kinds of expressions at once. *)
Scheme atom_ind' := Induction for atom Sort Prop
  with factor_ind' := Induction for factor Sort Prop
  with term_ind' := Induction for term Sort Prop
  with expr_ind' := Induction for expr Sort Prop.
Combined Scheme expr_mutind from atom_ind', factor_ind', term_ind', expr_ind'.

(** No NUL in [s]. *)
Definition clean (s : list ascii) : bool :=
  forallb (fun c => negb (Ascii.eqb c NUL)) s.

(* ===================================================================== *)
(** ** Some expressions *)

Definition lit (s : string) (v : float) : factor := Atom (Num (chars s) v).

(** [2+3*4] and [(2+3)*4] *)
Definition two_plus_three_times_four : expr :=
  Add (Term (Factor (lit "2" 2))) Plus (Mul (Factor (lit "3" 3)) Times (lit "4" 4)).

Definition two_plus_three_in_parens_times_four : expr :=
  Term (Mul (Factor (Atom (Paren (Add (Term (Factor (lit "2" 2))) Plus (Factor (lit "3" 3))))))
          Times (lit "4" 4)).

(** [n + 1] ones joined by [+]. *)
Fixpoint onesExpr (n : nat) : expr :=
  match n with
  | 0 => Term (Factor (lit "1" 1))
  | S n' => Add (onesExpr n') Plus (Factor (lit "1" 1))
  end.

(** A double that is an infinity or a NaN. *)
Definition notFinite (x : float) : bool :=
  match Prim2SF x with
  | S754_infinity _ | S754_nan => true
  | _ => false
  end.


(** The comparison [v == 0.0] on doubles: true of both zeros. *)
Definition isZero (v : float) : bool := PrimFloat.eqb v 0.

Section ZeroDivisor.

Variable m : libm.

(** The expression has, at some level, a [/] or a [%] whose right operand is
    worth zero. *)
Fixpoint zeroDivisorAtom (a : atom) : bool :=
  match a with
  | Num _ _ => false
  | Paren e => zeroDivisor e
  end
with zeroDivisorFactor (f : factor) : bool :=
  match f with
  | Atom a => zeroDivisorAtom a
  | Pow f a => zeroDivisorFactor f || zeroDivisorAtom a
  end
with zeroDivisorTerm (t : term) : bool :=
  match t with
  | Factor f => zeroDivisorFactor f
  | Mul t Times f => zeroDivisorTerm t || zeroDivisorFactor f
  | Mul t _ f => zeroDivisorTerm t || zeroDivisorFactor f || isZero (valueFactor m f)
  end
with zeroDivisor (e : expr) : bool :=
  match e with
  | Term t => zeroDivisorTerm t
  | Add e _ t => zeroDivisor e || zeroDivisorTerm t
  end.

End ZeroDivisor.

(** [2+1/0], [(1%0)*2] and [(1/-0.0)+1] *)
Definition two_plus_one_over_zero : expr :=
  Add (Term (Factor (lit "2" 2))) Plus (Mul (Factor (lit "1" 1)) Divide (lit "0" 0)).

Definition one_mod_zero_in_parens_times_two : expr :=
  Term (Mul (Factor (Atom (Paren (Term (Mul (Factor (lit "1" 1)) Modulo (lit "0" 0))))))
          Times (lit "2" 2)).

Definition one_over_minus_zero_in_parens_plus_one : expr :=
  Add (Term (Factor (Atom (Paren (Term (Mul (Factor (lit "1" 1)) Divide
                                          (lit "-0.0" neg_zero)))))))
    Plus (Factor (lit "1" 1)).

(** The last character of a text (NUL for the empty text). *)
Definition lastChar (s : list ascii) : ascii := List.last s NUL.

(** The locals with [c] appended to the text still to be read. *)
Definition appendChar (c : ascii) (st : locals) : locals :=
  setPtr (ptr st ++ [c]) st.

(** The locals once a trailing operator [c] has been stored after the last
    token. *)
Definition withTrailing (c : ascii) (st : locals) : locals :=
  Locals [] (tokens st) (<[numTokens st - 1 := c]> (operators st)) (numTokens st).

(* ===================================================================== *)
(** * Theorems *)

(** ** Runs of [evaluate] on given expressions *)

Ltac run := vm_compute; reflexivity.

(** C6: [foo(1)] ends in [UnknownFunction], [bar+1] in [UnknownIdentifier]
    and [sqrt(4] in [UnterminatedGroup], whatever the mathematical library;
    in each case the caller gets 0.0 and finds [errorFlag] set. *)
Theorem error_taxonomy (m : libm) :
  (calc m "foo(1)" = Fail UnknownFunction
   /\ returned (calc m "foo(1)") = Some 0%float
   /\ flagAfter false (calc m "foo(1)") = Some true)
  /\ (calc m "bar+1" = Fail UnknownIdentifier
      /\ returned (calc m "bar+1") = Some 0%float
      /\ flagAfter false (calc m "bar+1") = Some true)
  /\ (calc m "sqrt(4" = Fail UnterminatedGroup
      /\ returned (calc m "sqrt(4") = Some 0%float
      /\ flagAfter false (calc m "sqrt(4") = Some true).
Proof. repeat split; run. Qed.

(** C3: a minus sign at the start of a token belongs to the literal:
    [5*-2] is -10, [5--2] is 7, and [-5^2] is [pow(-5, 2)], which is 25 with
    a [pow] that is exact there. *)
Theorem unary_minus (m : libm) (Hpow : pow m (-5) 2 = 25%float) :
  calc m "5*-2" = Done (-10)
  /\ calc m "5--2" = Done 7
  /\ calc m "-5^2" = Done (pow m (-5) 2)
  /\ calc m "-5^2" = Done 25.
Proof.
  assert (E : calc m "-5^2" = Done (pow m (-5) 2)) by run.
  repeat split; try run; try exact E.
  now rewrite E, Hpow.
Qed.

Lemma unary_minus_witness :
  pow refLibm (-5) 2 = 25%float
  /\ calc refLibm "5*-2" = Done (-10)
  /\ calc refLibm "5--2" = Done 7
  /\ calc refLibm "-5^2" = Done (pow refLibm (-5) 2)
  /\ calc refLibm "-5^2" = Done 25.
Proof. split; [reflexivity | apply (unary_minus refLibm); reflexivity]. Defined.

(** C2 as the code has it: the chain [2^3^2] is reduced from the left,
    [pow(pow(2, 3), 2)], which is 64 with a [pow] that is exact there. *)
Theorem chained_exponent (m : libm)
    (H1 : pow m 2 3 = 8%float) (H2 : pow m 8 2 = 64%float) :
  calc m "2^3^2" = Done (pow m (pow m 2 3) 2)
  /\ calc m "2^3^2" = Done 64.
Proof.
  assert (E : calc m "2^3^2" = Done (pow m (pow m 2 3) 2)) by run.
  split; [exact E | now rewrite E, H1, H2].
Qed.

Lemma chained_exponent_witness :
  pow refLibm 2 3 = 8%float /\ pow refLibm 8 2 = 64%float
  /\ calc refLibm "2^3^2" = Done (pow refLibm (pow refLibm 2 3) 2)
  /\ calc refLibm "2^3^2" = Done 64.
Proof.
  split; [reflexivity | split; [reflexivity |]].
  apply (chained_exponent refLibm); reflexivity.
Defined.

(** The value stated for [2^3^2], 512, is not the one returned. *)
Lemma chained_exponent_not_512 :
  calc refLibm "2^3^2" = Done 64 /\ calc refLibm "2^3^2" <> Done 512.
Proof.
  split; [run |].
  intros H.
  apply (f_equal (fun o => match o with Done v => Prim2SF v | _ => S754_nan end)) in H.
  vm_compute in H. discriminate.
Qed.

(** C4 at [pi-2]: after the name the minus sign is taken for the start of a
    number, a second token is added without an operator between the two, and
    the last phase rejects the expression.  With [+] the evaluation goes
    through. *)
Theorem name_then_minus (m : libm) :
  calc m "pi-2" = Fail InvalidOperatorInLastPhase
  /\ calc m "pi+2" = Done (M_PI + 2).
Proof. split; run. Qed.

(* ===================================================================== *)
(** ** The tokenizing loop makes progress *)

Section Progress.

Variable m : libm.
Variable ev : list ascii -> outcome.
Variable errorFlag : bool.

Lemma pushToken_Go v st st' :
  pushToken v st = Go st' ->
  numTokens st < 50
  /\ st' = Locals (ptr st) (<[numTokens st := v]> (tokens st)) (operators st)
             (S (numTokens st)).
Proof.
  unfold pushToken. destruct (50 <=? numTokens st) eqn:E; [discriminate |].
  apply Nat.leb_gt in E. intros [= <-]. auto.
Qed.

Lemma pushToken_not_Continue v st st' : pushToken v st <> Continue st'.
Proof. unfold pushToken. now destruct (50 <=? numTokens st). Qed.

Lemma pushToken_Return v st o : pushToken v st = Return o -> o = Undefined.
Proof. unfold pushToken. destruct (50 <=? numTokens st); congruence. Qed.

(** What a block may do to the token count: [d] tokens are added and the
    count stays within the array. *)
Definition adds (d : nat) (st st' : locals) : Prop :=
  numTokens st' = numTokens st + d /\ numTokens st' <= 50
  /\ length (tokens st') = length (tokens st)
  /\ length (operators st') = length (operators st).

Lemma pushToken_adds v st st' : pushToken v st = Go st' -> adds 1 (setPtr (ptr st) st) st'.
Proof. intros [? ->]%pushToken_Go. unfold adds; simpl. rewrite length_insert. lia. Qed.

Ltac push_inv :=
  repeat match goal with
    | H : pushToken _ _ = Go _ |- _ => apply pushToken_Go in H; destruct H as [? ->]
    | H : pushToken _ _ = Continue _ |- _ => now apply pushToken_not_Continue in H
    | H : pushToken _ _ = Return _ |- _ => apply pushToken_Return in H; subst
    end.

Lemma nameToken_Go st st' :
  numTokens st <= 50 -> nameToken m ev errorFlag st = Go st' ->
  adds 0 st st' \/ adds 1 st st'.
Proof.
  intros Hn. unfold nameToken, andThen.
  repeat case_match; intros; simplify_eq; push_inv; unfold adds; simpl in *;
    rewrite ?length_insert; first [left; lia | right; lia].
Qed.

Lemma nameToken_Continue st st' :
  nameToken m ev errorFlag st = Continue st' -> adds 1 st st' /\ ptr st' = [].
Proof.
  unfold nameToken, andThen.
  repeat case_match; intros; simplify_eq; push_inv; unfold adds; simpl in *;
    rewrite ?length_insert; (split; [lia | assumption]).
Qed.

Lemma numberToken_Go st st' : numberToken st = Go st' -> adds 1 st st'.
Proof.
  unfold numberToken. repeat case_match; intros; push_inv; unfold adds; simpl in *;
    rewrite ?length_insert; lia.
Qed.

Lemma numberToken_not_Continue st st' : numberToken st <> Continue st'.
Proof. unfold numberToken. repeat case_match; apply pushToken_not_Continue. Qed.

Lemma groupOrNumber_Go st st' :
  numTokens st <= 50 -> groupOrNumber ev errorFlag st = Go st' ->
  adds 0 st st' \/ adds 1 st st'.
Proof.
  intros Hn. unfold groupOrNumber, andThen.
  repeat case_match; intros; simplify_eq; push_inv;
    try (match goal with H : numberToken _ = Go _ |- _ => apply numberToken_Go in H end; now right);
    unfold adds; simpl in *; rewrite ?length_insert; first [left; lia | right; lia].
Qed.

Lemma groupOrNumber_Continue st st' :
  groupOrNumber ev errorFlag st = Continue st' -> adds 1 st st' /\ ptr st' = [].
Proof.
  unfold groupOrNumber, andThen.
  repeat case_match; intros; simplify_eq; push_inv;
    try (match goal with H : numberToken _ = Continue _ |- _ => now apply numberToken_not_Continue in H end);
    unfold adds; simpl in *; rewrite ?length_insert; (split; [lia | assumption]).
Qed.

Lemma grabOperator_Go start st st' :
  grabOperator start st = Go st' ->
  start < numTokens st \/ numTokens st < start.
Proof.
  unfold grabOperator. destruct (numTokens st - start =? 0) eqn:E; [discriminate |].
  apply Nat.eqb_neq in E. intros _. lia.
Qed.

Lemma grabOperator_numTokens start st st' :
  grabOperator start st = Go st' -> numTokens st' = numTokens st.
Proof. unfold grabOperator. repeat case_match; intros; now simplify_eq. Qed.

Lemma grabOperator_lengths start st st' :
  grabOperator start st = Go st' ->
  length (tokens st') = length (tokens st)
  /\ length (operators st') = length (operators st).
Proof.
  unfold grabOperator. repeat case_match; intros; simplify_eq; simpl;
    rewrite ?length_insert; auto.
Qed.

Lemma grabOperator_not_Continue start st st' : grabOperator start st <> Continue st'.
Proof. unfold grabOperator. now repeat case_match. Qed.

(** An iteration of the loop that does not return has added a token. *)
Lemma tokenStep_adds st st' :
  tokenStep m ev errorFlag st = Go st' \/ tokenStep m ev errorFlag st = Continue st' ->
  numTokens st < numTokens st' <= 50.
Proof.
  unfold tokenStep. destruct (50 <=? numTokens st) eqn:E; [intros [|]; discriminate |].
  apply Nat.leb_gt in E.
  destruct (nameToken m ev errorFlag st) as [st1 | st1 | o] eqn:E1; simpl.
  - assert (H1 : numTokens st <= numTokens st1 <= 50)
      by (apply nameToken_Go in E1 as [(? & ? & _) | (? & ? & _)]; lia).
    destruct (groupOrNumber ev errorFlag st1) as [st2 | st2 | o] eqn:E2; simpl.
    + assert (H2 : numTokens st1 <= numTokens st2 <= 50)
        by (apply groupOrNumber_Go in E2 as [(? & ? & _) | (? & ? & _)]; lia).
      intros [H | H]; [| now apply grabOperator_not_Continue in H].
      pose proof (grabOperator_Go _ _ _ H). apply grabOperator_numTokens in H. lia.
    + apply groupOrNumber_Continue in E2 as [(? & ? & _) _].
      intros [[=] | [= <-]]. lia.
    + intros [|]; discriminate.
  - apply nameToken_Continue in E1 as [(? & ? & _) _]. intros [[=] | [= <-]]. lia.
  - intros [|]; discriminate.
Qed.

(** An iteration keeps the two arrays at their size. *)
Lemma tokenStep_lengths st st' :
  numTokens st <= 50 ->
  tokenStep m ev errorFlag st = Go st' \/ tokenStep m ev errorFlag st = Continue st' ->
  length (tokens st') = length (tokens st)
  /\ length (operators st') = length (operators st).
Proof.
  intros Hn. unfold tokenStep. destruct (50 <=? numTokens st); [intros [|]; discriminate |].
  destruct (nameToken m ev errorFlag st) as [st1 | st1 | o] eqn:E1; simpl.
  - assert (H1 : numTokens st1 <= 50 /\ length (tokens st1) = length (tokens st)
                 /\ length (operators st1) = length (operators st))
      by (apply nameToken_Go in E1 as [(? & ? & ? & ?) | (? & ? & ? & ?)]; auto).
    destruct H1 as (Hn1 & T1 & O1).
    destruct (groupOrNumber ev errorFlag st1) as [st2 | st2 | o] eqn:E2; simpl.
    + assert (H2 : length (tokens st2) = length (tokens st1)
                   /\ length (operators st2) = length (operators st1))
        by (apply groupOrNumber_Go in E2 as [(? & ? & ? & ?) | (? & ? & ? & ?)]; auto).
      intros [H | H]; [| now apply grabOperator_not_Continue in H].
      apply grabOperator_lengths in H. destruct H2, H. split; congruence.
    + apply groupOrNumber_Continue in E2 as [(? & ? & ? & ?) _].
      intros [[=] | [= <-]]. split; congruence.
    + intros [|]; discriminate.
  - apply nameToken_Continue in E1 as [(? & ? & ? & ?) _].
    intros [[=] | [= <-]]. split; congruence.
  - intros [|]; discriminate.
Qed.

(** What an iteration returns is a diagnostic of its own, the 0.0 of a call
    entered with [errorFlag] set, a buffer overrun, or what a nested call
    ended with. *)
Definition returnable (o : outcome) : Prop :=
  (exists e, o = Fail e) \/ o = Undefined \/ o = Done 0
  \/ (exists sub, ev sub = o).

Lemma nameToken_Return st o : nameToken m ev errorFlag st = Return o -> returnable o.
Proof.
  unfold nameToken, andThen, returnable.
  repeat case_match; intros; simplify_eq; push_inv; eauto 6.
Qed.

Lemma numberToken_Return st o : numberToken st = Return o -> o = Undefined.
Proof. unfold numberToken. repeat case_match; intros; now push_inv. Qed.

Lemma groupOrNumber_Return st o :
  groupOrNumber ev errorFlag st = Return o -> returnable o.
Proof.
  unfold groupOrNumber, andThen, returnable.
  repeat case_match; intros; simplify_eq; push_inv; eauto 6.
  match goal with H : numberToken _ = Return _ |- _ => apply numberToken_Return in H end.
  auto.
Qed.

Lemma grabOperator_Return start st o :
  grabOperator start st = Return o -> exists e, o = Fail e.
Proof. unfold grabOperator. repeat case_match; intros; simplify_eq; eauto. Qed.

Lemma tokenStep_Return st o : tokenStep m ev errorFlag st = Return o -> returnable o.
Proof.
  unfold tokenStep. destruct (50 <=? numTokens st); [intros [= <-]; left; eauto |].
  destruct (nameToken m ev errorFlag st) as [st1 | st1 | o1] eqn:E1; simpl;
    [| discriminate | intros [= <-]; eapply nameToken_Return; eauto].
  destruct (groupOrNumber ev errorFlag st1) as [st2 | st2 | o2] eqn:E2; simpl;
    [| discriminate | intros [= <-]; eapply groupOrNumber_Return; eauto].
  intros H. left. eapply grabOperator_Return; eauto.
Qed.

(** More iterations than there are free slots, plus one, are never used. *)
Lemma tokenize_fuel left1 : forall left2 st,
  numTokens st <= 50 -> 50 < left1 + numTokens st -> 50 < left2 + numTokens st ->
  tokenize m ev errorFlag left1 st = tokenize m ev errorFlag left2 st.
Proof.
  induction left1 as [| left1 IH]; intros left2 st Hn H1 H2; [lia |].
  destruct left2 as [| left2]; [lia |].
  simpl. destruct (ptr st); [reflexivity |].
  destruct (tokenStep m ev errorFlag st) as [st' | st' | o] eqn:E; [| | reflexivity].
  - assert (numTokens st < numTokens st' <= 50) by (apply tokenStep_adds; auto).
    apply IH; lia.
  - assert (numTokens st < numTokens st' <= 50) by (apply tokenStep_adds; auto).
    apply IH; lia.
Qed.

Lemma tokenize_no_runaway left : forall st,
  (forall sub, ev sub <> Abort TokenizerRunaway) ->
  numTokens st <= 50 -> 50 < left + numTokens st ->
  tokenize m ev errorFlag left st <> inl (Abort TokenizerRunaway).
Proof.
  induction left as [| left IH]; intros st Hev Hn Hl; [lia |].
  simpl. destruct (ptr st); [discriminate |].
  destruct (tokenStep m ev errorFlag st) as [st' | st' | o] eqn:E.
  - assert (numTokens st < numTokens st' <= 50) by (apply tokenStep_adds; auto).
    apply IH; auto; lia.
  - assert (numTokens st < numTokens st' <= 50) by (apply tokenStep_adds; auto).
    apply IH; auto; lia.
  - intros [= ->].
    apply tokenStep_Return in E as [[e ?] | [? | [? | [sub E]]]]; try discriminate.
    now apply Hev in E.
Qed.

End Progress.

(** The reduction pass never aborts the process. *)
Lemma sweep_not_abort m evalPhase k : forall i st f,
  sweep m evalPhase k i st <> inl (Abort f).
Proof.
  induction k as [| k IH]; intros i st f; simpl; [discriminate |].
  repeat case_match; try discriminate; apply IH.
Qed.

Lemma phase_not_abort m evalPhase st f : phase m evalPhase st <> inl (Abort f).
Proof.
  unfold phase. destruct (numTokens st =? 0); [discriminate | apply sweep_not_abort].
Qed.

Lemma reduce_not_abort m st f : reduce m st <> Abort f.
Proof.
  unfold reduce.
  destruct (phase m 0 st) as [o | st1] eqn:E0;
    [intros ->; now apply phase_not_abort in E0 |].
  destruct (phase m 1 st1) as [o | st2] eqn:E1;
    [intros ->; now apply phase_not_abort in E1 |].
  destruct (phase m 2 st2) as [o | st3] eqn:E2;
    [intros ->; now apply phase_not_abort in E2 | discriminate].
Qed.

Lemma evaluateRec_no_runaway m errorFlag calls : forall expr depth,
  evaluateRec m errorFlag calls expr depth <> Abort TokenizerRunaway.
Proof.
  induction calls as [| calls IH]; intros expr depth; [discriminate |].
  change (evaluateRec m errorFlag (S calls) expr depth)
    with (evaluateBody m errorFlag (evaluateRec m errorFlag calls) expr depth).
  unfold evaluateBody.
  destruct (length expr <? 1); [discriminate |].
  destruct (1000 <? depth); [discriminate |].
  destruct (tokenize _ _ _ _ _) as [o | st] eqn:E; [| apply reduce_not_abort].
  intros ->. revert E. apply tokenize_no_runaway.
  - intros sub. apply IH.
  - simpl. lia.
  - unfold runawayLimit. lia.
Qed.

(** C8: an iteration of the tokenizing loop that does not return has added
    a token and the count stays within the 50 slots; so 51 iterations are
    all the loop ever runs, whatever the limit above that; and no call of
    [evaluate] ends in the runaway abort. *)
Theorem runaway_guard_unreachable (m : libm) (errorFlag : bool) :
  (forall ev st st',
      tokenStep m ev errorFlag st = Go st' \/ tokenStep m ev errorFlag st = Continue st' ->
      numTokens st < numTokens st' <= 50)
  /\ (forall ev expr limit,
        51 <= limit ->
        tokenize m ev errorFlag limit (initLocals expr)
        = tokenize m ev errorFlag 51 (initLocals expr))
  /\ (forall expr depth, evaluate m errorFlag expr depth <> Abort TokenizerRunaway).
Proof.
  split; [| split].
  - intros ev st st'. apply tokenStep_adds.
  - intros ev expr limit Hl. apply tokenize_fuel; simpl; lia.
  - intros expr depth. apply evaluateRec_no_runaway.
Qed.

(* ===================================================================== *)
(** ** The reduction pass works on the chain the arrays hold *)

(** Moving a segment one slot to the left overwrites the slot before it and
    leaves a stale copy in the last slot. *)
Lemma shiftLeft_segment {A} `{Inhabited A} (seg : list A) : forall pre x junk from,
  from = length pre ->
  exists y,
    shiftLeft (length seg) from (pre ++ x :: seg ++ junk) = pre ++ seg ++ y :: junk.
Proof.
  induction seg as [| s seg IH]; intros pre x junk from ->; simpl.
  - now exists x.
  - assert (E : (pre ++ x :: s :: seg ++ junk) !!! S (length pre) = s).
    { replace (pre ++ x :: s :: seg ++ junk) with ((pre ++ [x]) ++ s :: seg ++ junk)
        by now rewrite <- app_assoc.
      apply list_lookup_total_middle. rewrite length_app. simpl. lia. }
    rewrite E, insert_app_r_alt, Nat.sub_diag by lia. simpl.
    destruct (IH (pre ++ [s]) s junk (S (length pre))) as [y Hy].
    { rewrite length_app. simpl. lia. }
    exists y. rewrite <- app_assoc in Hy. simpl in Hy. rewrite Hy.
    now rewrite <- app_assoc.
Qed.

Lemma lookup_total_next {A} `{Inhabited A} (pre : list A) x y post i :
  i = length pre -> (pre ++ x :: y :: post) !!! (i + 1) = y.
Proof.
  intros ->. replace (pre ++ x :: y :: post) with ((pre ++ [x]) ++ y :: post)
    by now rewrite <- app_assoc.
  apply list_lookup_total_middle. rewrite length_app. simpl. lia.
Qed.

Section Simulation.

Variable m : libm.

Lemma collapse_chain pt pre opre acc v seg junk o oseg junko x i n :
  i = length pre -> i = length opre ->
  length oseg = length seg -> n = i + 2 + length seg ->
  exists y y',
    collapse i x (Locals pt (pre ++ acc :: v :: seg ++ junk)
                    (opre ++ o :: oseg ++ junko) n)
    = Locals pt (pre ++ x :: seg ++ y :: junk) (opre ++ oseg ++ y' :: junko)
        (i + 1 + length seg).
Proof.
  intros -> Hi' Hseg ->. unfold collapse. simpl.
  replace (length pre + 2 + length seg - 1 - (length pre + 1)) with (length seg) by lia.
  replace (length pre + 2 + length seg - 2 - length pre) with (length oseg) by lia.
  replace (length pre + 2 + length seg - 1) with (length pre + 1 + length seg) by lia.
  rewrite insert_app_r_alt, Nat.sub_diag by lia. simpl.
  destruct (shiftLeft_segment seg (pre ++ [x]) v junk (length pre + 1)) as [y Hy].
  { rewrite length_app. simpl. lia. }
  destruct (shiftLeft_segment oseg opre o junko (length pre) Hi') as [y' Hy'].
  exists y, y'. rewrite <- app_assoc in Hy. simpl in Hy.
  now rewrite Hy, Hy', <- app_assoc.
Qed.

(** [sweep] from index [i] on and [chainSweep] on what lies from there on
    do the same. *)
Lemma sweep_chain p pt rest : forall pre opre acc junk junko i n,
  i = length pre -> i = length opre -> n = i + 1 + length rest ->
  match chainSweep m p acc rest with
  | inl o =>
      sweep m p (length rest) i
        (Locals pt (pre ++ acc :: map snd rest ++ junk)
           (opre ++ map fst rest ++ junko) n) = inl o
  | inr (acc', rest') =>
      exists junk' junko',
        sweep m p (length rest) i
          (Locals pt (pre ++ acc :: map snd rest ++ junk)
             (opre ++ map fst rest ++ junko) n)
        = inr (Locals pt (pre ++ acc' :: map snd rest' ++ junk')
                 (opre ++ map fst rest' ++ junko') (i + 1 + length rest'))
        /\ length rest' + length junk' = length rest + length junk
        /\ length rest' + length junko' = length rest + length junko
  end.
Proof.
  induction rest as [| [o v] r IH]; intros pre opre acc junk junko i n Hi Hi' Hn.
  - simpl. exists junk, junko. subst n. auto.
  - simpl in Hn. cbn [chainSweep length map fst snd sweep tokens operators app].
    rewrite (lookup_total_next pre acc v _ i Hi).
    rewrite (list_lookup_total_middle pre _ acc i Hi).
    rewrite (list_lookup_total_middle opre _ o i Hi').
    assert (Skip :
      match
        match chainSweep m p v r with
        | inl o0 => inl o0
        | inr (a, r0) => inr (acc, (o, a) :: r0)
        end
      with
      | inl o0 =>
          sweep m p (length r) (i + 1)
            (Locals pt (pre ++ acc :: v :: map snd r ++ junk)
               (opre ++ o :: map fst r ++ junko) n) = inl o0
      | inr (acc', rest') =>
          exists junk' junko',
            sweep m p (length r) (i + 1)
              (Locals pt (pre ++ acc :: v :: map snd r ++ junk)
                 (opre ++ o :: map fst r ++ junko) n)
            = inr (Locals pt (pre ++ acc' :: map snd rest' ++ junk')
                     (opre ++ map fst rest' ++ junko') (i + 1 + length rest'))
            /\ length rest' + length junk' = S (length r) + length junk
            /\ length rest' + length junko' = S (length r) + length junko
      end).
    { specialize (IH (pre ++ [acc]) (opre ++ [o]) v junk junko (i + 1) n).
      rewrite !length_app in IH. simpl in IH.
      repeat (lazymatch type of IH with ?P -> _ => assert (HP : P) by lia; specialize (IH HP); clear HP end).
      rewrite <- !app_assoc in IH. simpl in IH.
      destruct (chainSweep m p v r) as [o0 | [a r0]]; [exact IH |].
      destruct IH as (junk' & junko' & E & L1 & L2).
      exists junk', junko'. rewrite <- !app_assoc in E. simpl in *.
      rewrite E. split; [do 2 f_equal; lia | lia]. }
    destruct ((p =? 0) && negb (isChar o "^")); [exact Skip |].
    destruct ((p =? 1) && negb (isChar o "*") && negb (isChar o "/") && negb (isChar o "%"));
      [exact Skip |].
    clear Skip.
    destruct ((p =? 2) && negb (isChar o "+") && negb (isChar o "-")); [reflexivity |].
    destruct (applyOper m o acc v) as [x |]; [| reflexivity].
    destruct (collapse_chain pt pre opre acc v (map snd r) junk o (map fst r) junko x i n)
      as (y & y' & E); auto.
    { now rewrite !length_map. }
    { rewrite length_map. lia. }
    simpl in E. rewrite E. rewrite length_map.
    specialize (IH pre opre x (y :: junk) (y' :: junko) i (i + 1 + length r) Hi Hi' eq_refl).
    destruct (chainSweep m p x r) as [o0 | [a r0]]; [exact IH |].
    destruct IH as (junk' & junko' & E' & L1 & L2).
    exists junk', junko'. simpl in *. rewrite E'. repeat split; lia.
Qed.

Lemma holds_split st c :
  holds st c ->
  exists junk junko,
    st = Locals (ptr st) (values c ++ junk) (opers c ++ junko) (length (values c)).
Proof.
  intros (L1 & L2 & Hn & Hle & T & O).
  exists (drop (numTokens st) (tokens st)), (drop (numTokens st - 1) (operators st)).
  destruct st as [pt tk op n]. cbn [tokens operators numTokens ptr] in *. f_equal.
  - now rewrite <- T, take_drop.
  - now rewrite <- O, take_drop.
  - exact Hn.
Qed.

Lemma holds_intro pt c junk junko :
  length (values c ++ junk) = 50 -> length (opers c ++ junko) = 50 ->
  holds (Locals pt (values c ++ junk) (opers c ++ junko) (length (values c))) c.
Proof.
  intros L1 L2. unfold holds. cbn [tokens operators numTokens].
  split; [exact L1 |]. split; [exact L2 |]. split; [reflexivity |].
  split; [rewrite length_app in L1; lia |].
  split; [apply take_app_length |].
  replace (length (values c) - 1) with (length (opers c))
    by (unfold values, opers; simpl; rewrite !length_map; lia).
  apply take_app_length.
Qed.

Lemma phase_chain p st c :
  holds st c ->
  match chainPhase m p c with
  | inl o => phase m p st = inl o
  | inr c' => exists st', phase m p st = inr st' /\ holds st' c' /\ ptr st' = ptr st
  end.
Proof.
  intros Hh. pose proof Hh as (L1 & L2 & Hn & _).
  destruct (holds_split st c Hh) as (junk & junko & E).
  destruct c as [v0 l]. unfold chainPhase, phase, values, opers in *. simpl in *.
  rewrite Hn. simpl. rewrite length_map, Nat.sub_0_r.
  rewrite E in L1, L2 |- *. simpl tokens in *. simpl operators in *. simpl ptr.
  pose proof (sweep_chain p (ptr st) l [] [] v0 junk junko 0 (S (length (map snd l)))) as Hs.
  rewrite length_map in Hs. specialize (Hs eq_refl eq_refl eq_refl). simpl in Hs.
  rewrite length_map.
  destruct (chainSweep m p v0 l) as [o | [a r]]; [exact Hs |].
  destruct Hs as (junk' & junko' & Es & La & Lb).
  eexists. split; [exact Es |]. split; [| reflexivity].
  simpl in L1. rewrite length_app, length_map in L1, L2.
  replace (S (length r)) with (length (values (a, r)))
    by (unfold values; simpl; now rewrite length_map).
  apply (holds_intro (ptr st) (a, r) junk' junko');
    unfold values, opers; simpl; rewrite length_app, length_map; simpl; lia.
Qed.

(** The reduction pass returns what the three sweeps over the chain give. *)
Lemma reduce_chain st c : holds st c -> reduce m st = chainReduce m c.
Proof.
  intros H0. unfold reduce, chainReduce.
  pose proof (phase_chain 0 st c H0) as P0.
  destruct (chainPhase m 0 c) as [o | c1]; [now rewrite P0 |].
  destruct P0 as (st1 & -> & H1 & _).
  pose proof (phase_chain 1 st1 c1 H1) as P1.
  destruct (chainPhase m 1 c1) as [o | c2]; [now rewrite P1 |].
  destruct P1 as (st2 & -> & H2 & _).
  pose proof (phase_chain 2 st2 c2 H2) as P2.
  destruct (chainPhase m 2 c2) as [o | c3]; [now rewrite P2 |].
  destruct P2 as (st3 & -> & H3 & _).
  destruct (holds_split st3 c3 H3) as (junk & junko & ->).
  now destruct c3.
Qed.

End Simulation.

(* ===================================================================== *)
(** ** The three sweeps over a chain *)

Section Sweeps.

Variable m : libm.

(** An operator of the phase's tier is applied and the sweep stays at the
    result; in phases 0 and 1 another operator is stepped over. *)
Lemma chainSweep_apply p acc o v l :
  p <= 2 -> tier p o = true ->
  chainSweep m p acc ((o, v) :: l)
  = match applyOper m o acc v with
    | Some r => chainSweep m p r l
    | None => inl (Fail NonOperatorInList)
    end.
Proof.
  intros Hp Ht. destruct p as [| [| [| p]]]; [| | | lia]; simpl in *.
  - now rewrite Ht.
  - apply orb_prop in Ht as [[Ht | Ht]%orb_prop | Ht]; rewrite Ht; simpl;
      rewrite ?andb_false_r; reflexivity.
  - apply orb_prop in Ht as [Ht | Ht]; rewrite Ht; simpl;
      rewrite ?andb_false_r; reflexivity.
Qed.

Lemma chainSweep_skip p acc o v l :
  p < 2 -> tier p o = false ->
  chainSweep m p acc ((o, v) :: l)
  = match chainSweep m p v l with
    | inl e => inl e
    | inr (a, r) => inr (acc, (o, a) :: r)
    end.
Proof.
  intros Hp Ht. destruct p as [| [| p]]; [| | lia]; simpl in *.
  - now rewrite Ht.
  - apply orb_false_elim in Ht as [[-> ->]%orb_false_elim ->]. reflexivity.
Qed.

(** A sweep that has reached the operator [o] of a later tier starts afresh
    behind it. *)
Lemma chainSweep_join_skip p o v l' : forall l acc c1,
  p < 2 -> tier p o = false ->
  chainSweep m p acc l = inr c1 ->
  chainSweep m p acc (l ++ (o, v) :: l')
  = match chainSweep m p v l' with
    | inl e => inl e
    | inr c2 => inr (joinChain c1 o c2)
    end.
Proof.
  induction l as [| [o1 v1] l IH]; intros acc c1 Hp Ht E.
  - simpl in E. injection E as <-. simpl app. rewrite chainSweep_skip by assumption.
    now destruct (chainSweep m p v l') as [e | [a r]].
  - simpl app. destruct (tier p o1) eqn:T1.
    + rewrite chainSweep_apply in E |- * by (assumption || lia).
      destruct (applyOper m o1 acc v1); [now apply IH | discriminate].
    + rewrite chainSweep_skip in E |- * by assumption.
      destruct (chainSweep m p v1 l) as [e | [a r]] eqn:E1; [discriminate |].
      injection E as <-. rewrite (IH v1 (a, r)) by auto.
      now destruct (chainSweep m p v l') as [e | [a2 r2]].
Qed.

(** A sweep that has reduced all it has seen to [a] goes on from [a]. *)
Lemma chainSweep_join_apply p l' : forall l acc a,
  p <= 2 -> chainSweep m p acc l = inr (a, []) ->
  chainSweep m p acc (l ++ l') = chainSweep m p a l'.
Proof.
  induction l as [| [o1 v1] l IH]; intros acc a Hp E.
  - simpl in E. now injection E as <-.
  - simpl app. destruct (tier p o1) eqn:T1.
    + rewrite chainSweep_apply in E |- * by assumption.
      destruct (applyOper m o1 acc v1); [now apply IH | discriminate].
    + destruct (Nat.eq_dec p 2) as [-> | Hne].
      * simpl in E, T1. apply orb_false_elim in T1 as [T1 T2].
        rewrite T1, T2 in E. discriminate.
      * rewrite chainSweep_skip in E by (assumption || lia).
        destruct (chainSweep m p v1 l) as [e | [a1 r1]]; discriminate.
Qed.

Lemma chainPhase_join_skip p c o c' c1 :
  p < 2 -> tier p o = false ->
  chainPhase m p c = inr c1 ->
  chainPhase m p (joinChain c o c')
  = match chainPhase m p c' with
    | inl e => inl e
    | inr c2 => inr (joinChain c1 o c2)
    end.
Proof. intros. unfold chainPhase, joinChain. cbn [fst snd]. now apply chainSweep_join_skip. Qed.

Lemma chainPhase_join_apply p c o c' a :
  p <= 2 -> chainPhase m p c = inr (a, []) ->
  chainPhase m p (joinChain c o c') = chainSweep m p a ((o, fst c') :: snd c').
Proof. intros. unfold chainPhase, joinChain. cbn [fst snd]. now apply chainSweep_join_apply. Qed.

(** *** An expression tier by tier *)

Definition valuesExpr (e : expr) : chain := mapChain (valueAtom m) (atomsExpr e).
Definition valuesTerm (t : term) : chain := mapChain (valueAtom m) (atomsTerm t).
Definition valuesFactor (f : factor) : chain := mapChain (valueAtom m) (atomsFactor f).

Lemma mapChain_join {A B} (g : A -> B) c o c' :
  mapChain g (joinChain c o c') = joinChain (mapChain g c) o (mapChain g c').
Proof. unfold mapChain, joinChain. simpl. now rewrite map_app. Qed.

Lemma tier_addChar o : tier 0 (addChar o) = false /\ tier 1 (addChar o) = false
                       /\ tier 2 (addChar o) = true.
Proof. now destruct o. Qed.

Lemma tier_mulChar o : tier 0 (mulChar o) = false /\ tier 1 (mulChar o) = true.
Proof. now destruct o. Qed.

Lemma phase0_factor f : chainPhase m 0 (valuesFactor f) = inr (valueFactor m f, []).
Proof.
  unfold valuesFactor.
  induction f as [a | f IH a]; [reflexivity |].
  cbn [atomsFactor valueFactor]. rewrite mapChain_join.
  now rewrite (chainPhase_join_apply 0 _ _ _ _ (Nat.le_0_l _) IH).
Qed.

Lemma phase0_term t : chainPhase m 0 (valuesTerm t) = inr (factorsTerm m t).
Proof.
  unfold valuesTerm.
  induction t as [f | t IH o f]; [apply phase0_factor |].
  cbn [atomsTerm factorsTerm]. rewrite mapChain_join.
  rewrite (chainPhase_join_skip 0 _ _ _ _ Nat.lt_0_2 (proj1 (tier_mulChar o)) IH).
  fold (valuesFactor f). now rewrite (phase0_factor f).
Qed.

Lemma phase0_expr e : chainPhase m 0 (valuesExpr e) = inr (factorsExpr m e).
Proof.
  unfold valuesExpr.
  induction e as [t | e IH o t]; [apply phase0_term |].
  cbn [atomsExpr factorsExpr]. rewrite mapChain_join.
  rewrite (chainPhase_join_skip 0 _ _ _ _ Nat.lt_0_2 (proj1 (tier_addChar o)) IH).
  fold (valuesTerm t). now rewrite (phase0_term t).
Qed.

Lemma phase1_term t : chainPhase m 1 (factorsTerm m t) = inr (valueTerm m t, []).
Proof.
  induction t as [f | t IH o f]; [reflexivity |].
  cbn [factorsTerm valueTerm].
  rewrite (chainPhase_join_apply 1 _ _ _ _ (Nat.le_succ_diag_r _) IH).
  now destruct o.
Qed.

Lemma phase1_expr e : chainPhase m 1 (factorsExpr m e) = inr (termsExpr m e).
Proof.
  induction e as [t | e IH o t]; [apply phase1_term |].
  cbn [factorsExpr termsExpr].
  rewrite (chainPhase_join_skip 1 _ _ _ _ Nat.lt_1_2 (proj1 (proj2 (tier_addChar o))) IH).
  now rewrite (phase1_term t).
Qed.

Lemma phase2_expr e : chainPhase m 2 (termsExpr m e) = inr (valueExpr m e, []).
Proof.
  induction e as [t | e IH o t]; [reflexivity |].
  cbn [termsExpr valueExpr].
  rewrite (chainPhase_join_apply 2 _ _ _ _ (Nat.le_refl _) IH).
  now destruct o.
Qed.

(** The three sweeps over the operands of an expression leave its value. *)
Lemma chainReduce_expr e : chainReduce m (valuesExpr e) = Done (valueExpr m e).
Proof.
  unfold chainReduce. now rewrite phase0_expr, phase1_expr, phase2_expr.
Qed.

(** *** Any chain whose operators are operators *)

Lemma applyOper_tier p o a b :
  p <= 2 -> tier p o = true -> exists x, applyOper m o a b = Some x.
Proof.
  intros Hp Ht. unfold applyOper.
  destruct (isChar o "^") eqn:E0; [eauto |].
  destruct (isChar o "*" || isChar o "/" || isChar o "%") eqn:E1; [eauto |].
  destruct (isChar o "+" || isChar o "-") eqn:E2; [eauto |].
  destruct p as [| [| [| p]]]; [| | | lia]; cbn [tier] in Ht; congruence.
Qed.

Lemma tiersFrom_next p o :
  p < 2 -> tiersFrom p o = true -> tier p o = false -> tiersFrom (S p) o = true.
Proof.
  intros Hp H Ht. destruct p as [| [| p]]; [| | lia]; cbn [tiersFrom] in *;
    rewrite Ht in H; exact H.
Qed.

Lemma chainSweep_total p : forall l acc,
  p <= 2 -> Forall (fun x => tiersFrom p (fst x) = true) l ->
  exists c, chainSweep m p acc l = inr c
            /\ Forall (fun x => tiersFrom (S p) (fst x) = true) (snd c).
Proof.
  induction l as [| [o v] l IH]; intros acc Hp Hl.
  - exists (acc, []). split; [reflexivity | constructor].
  - apply Forall_cons in Hl as [Ho Hl]. simpl in Ho.
    destruct (tier p o) eqn:Ht.
    + rewrite chainSweep_apply by assumption.
      destruct (applyOper_tier p o acc v Hp Ht) as [x ->]. now apply IH.
    + assert (Hlt : p < 2).
      { destruct (Nat.eq_dec p 2) as [-> | ?]; [cbn [tiersFrom] in Ho; congruence | lia]. }
      rewrite chainSweep_skip by assumption.
      destruct (IH v Hp Hl) as ([a r] & -> & Hr).
      eexists. split; [reflexivity |]. simpl. constructor; [| exact Hr].
      simpl. now apply tiersFrom_next.
Qed.

Lemma isOper_tiersFrom o : isOper o = tiersFrom 0 o.
Proof. destruct o as [[] [] [] [] [] [] [] []]; reflexivity. Qed.

(** When every operator of the chain is an operator character, the three
    sweeps end with a value, whatever the tokens are. *)
Lemma chainReduce_total c :
  Forall (fun x => isOper (fst x) = true) (snd c) ->
  exists v, chainReduce m c = Done v.
Proof.
  intros H. unfold chainReduce, chainPhase.
  destruct (chainSweep_total 0 (snd c) (fst c)) as (c1 & -> & H1); [lia | |].
  { eapply Forall_impl; [exact H |]. intros x Hx. now rewrite <- isOper_tiersFrom. }
  destruct (chainSweep_total 1 (snd c1) (fst c1)) as (c2 & -> & H2); [lia | exact H1 |].
  destruct (chainSweep_total 2 (snd c2) (fst c2)) as (c3 & -> & H3); [lia | exact H2 |].
  eauto.
Qed.

End Sweeps.

(* ===================================================================== *)
(** ** The tokenizing loop on a chain of operands *)

Lemma open_not_close c : openParen c = true -> closeParen c = false.
Proof.
  unfold openParen, closeParen. intros H%Ascii.eqb_eq. now subst.
Qed.

(** Across a balanced text the level comes back to where it was, without
    reaching zero on the way. *)
Lemma scanGroup_balanced r : forall s lvl p,
  balancedFrom lvl s = true -> 1 <= p ->
  scanGroup (p + lvl) (s ++ r)
  = let '(sub, q, rest) := scanGroup p r in (s ++ sub, q, rest).
Proof.
  induction s as [| c s IH]; intros lvl p Hb Hp; simpl in *.
  - apply Nat.eqb_eq in Hb as ->. rewrite Nat.add_0_r.
    now destruct (scanGroup p r) as [[sub q] rest].
  - unfold nest. destruct (openParen c) eqn:Eo.
    + rewrite (open_not_close c Eo).
      replace (S (p + lvl) =? 0) with false by (symmetry; apply Nat.eqb_neq; lia).
      replace (S (p + lvl)) with (p + S lvl) by lia.
      rewrite (IH (S lvl) p Hb Hp).
      now destruct (scanGroup p r) as [[sub q] rest].
    + destruct (closeParen c) eqn:Ec.
      * destruct lvl as [| l]; [discriminate |].
        replace (Nat.pred (p + S l)) with (p + l) by lia.
        replace (p + l =? 0) with false by (symmetry; apply Nat.eqb_neq; lia).
        rewrite (IH l p Hb Hp).
        now destruct (scanGroup p r) as [[sub q] rest].
      * replace (p + lvl =? 0) with false by (symmetry; apply Nat.eqb_neq; lia).
        rewrite (IH lvl p Hb Hp).
        now destruct (scanGroup p r) as [[sub q] rest].
Qed.

Lemma scanGroup_group inner rest :
  balanced inner = true ->
  scanGroup 1 (inner ++ ")"%char :: rest) = (inner, 0, rest).
Proof.
  intros Hb. pose proof (scanGroup_balanced (")"%char :: rest) inner 0 1 Hb (Nat.le_refl _)) as E.
  simpl in E. rewrite E. now rewrite app_nil_r.
Qed.

Section Operands.

Variable m : libm.
Variable ev : list ascii -> outcome.

(** How an iteration ends that has stored a token, and an operator when the
    text goes on. *)
Definition stepped (c : ctl) (st' : locals) : Prop := c = Go st' \/ c = Continue st'.

Lemma tokenize_stepped left st st' c :
  ptr st <> [] -> tokenStep m ev false st = c -> stepped c st' ->
  tokenize m ev false (S left) st = tokenize m ev false left st'.
Proof.
  intros Hp <- [E | E]; simpl; destruct (ptr st); try congruence; now rewrite E.
Qed.

(** One iteration at an operand: its value goes to [tokens[numTokens]], and
    the operator after it, if any, to [operators[numTokens]]. *)
Lemma tokenStep_operand text val rest pt tk op n :
  operand ev text val -> follows rest = true -> n < 50 ->
  pt = text ++ rest ->
  stepped (tokenStep m ev false (Locals pt tk op n))
    match rest with
    | [] => Locals [] (<[n := val]> tk) op (S n)
    | o :: rest' => Locals rest' (<[n := val]> tk) (<[n := o]> op) (S n)
    end.
Proof.
  intros Ho Hf Hn ->. unfold tokenStep. cbn [numTokens].
  replace (50 <=? n) with false by (symmetry; apply Nat.leb_gt; lia).
  destruct Ho as [(Hc & Hplain & Hread) | (inner & -> & Hb & Hlen & Hev)].
  - (* a literal *)
    destruct text as [| c text]; [contradiction |]. destruct Hc as [Ha Hnum].
    simpl in Hplain. apply andb_prop in Hplain as [Hc _].
    unfold plain in Hc. apply andb_prop in Hc as [[_ Hop%negb_true_iff]%andb_prop _].
    unfold nameToken. cbn [ptr app]. rewrite Ha. cbn [andThen].
    unfold groupOrNumber. cbn [ptr]. rewrite Hop, Hnum.
    unfold numberToken. cbn [ptr].
    change (c :: text ++ rest) with ((c :: text) ++ rest).
    rewrite (Hread rest Hf). unfold pushToken, setPtr. cbn [numTokens ptr tokens operators].
    replace (50 <=? n) with false by (symmetry; apply Nat.leb_gt; lia).
    cbn [andThen]. unfold grabOperator. cbn [numTokens ptr tokens operators].
    replace (S n - n =? 0) with false by (symmetry; apply Nat.eqb_neq; lia).
    destruct rest as [| o rest']; [now left |].
    simpl in Hf. rewrite Hf. cbn [negb]. simpl. rewrite Nat.sub_0_r. now left.
  - (* a group *)
    unfold nameToken. cbn [ptr app]. change (isAlpha "(") with false. cbn [andThen].
    unfold groupOrNumber. cbn [ptr]. change (openParen "(") with true. cbn iota.
    rewrite <- app_assoc. cbn [app]. rewrite (scanGroup_group inner rest Hb).
    cbn [negb Nat.eqb]. replace (4096 <=? length inner) with false
      by (symmetry; apply Nat.leb_gt; lia).
    rewrite Hev. unfold pushToken, setPtr. cbn [numTokens ptr tokens operators].
    replace (50 <=? n) with false by (symmetry; apply Nat.leb_gt; lia).
    cbn [andThen ptr]. destruct rest as [| o rest']; [now right |].
    cbn [andThen]. unfold grabOperator. cbn [numTokens ptr tokens operators].
    replace (S n - n =? 0) with false by (symmetry; apply Nat.eqb_neq; lia).
    simpl in Hf. rewrite Hf. cbn [negb]. simpl. rewrite Nat.sub_0_r. now left.
Qed.

Lemma operand_nonempty text val : operand ev text val -> text <> [].
Proof.
  intros [(Hc & _) | (inner & -> & _)]; [| discriminate].
  now destruct text.
Qed.

Lemma tokenize_end left st : ptr st = [] -> tokenize m ev false left st = inr st.
Proof. intros E. destruct left; simpl; now rewrite E. Qed.

Lemma insert_after {A} (pre : list A) x v junk :
  <[length pre := v]> (pre ++ x :: junk) = pre ++ v :: junk.
Proof. now rewrite insert_app_r_alt, Nat.sub_diag by lia. Qed.

(** The operands described by [c], each with its text and its value. *)
Definition described (c : chainOf (list ascii * float)) : Prop :=
  chainAll (fun x => operand ev (fst x) (snd x)) c
  /\ Forall (fun x => isOper (fst x) = true) (snd c).

Lemma textOf_cons (h : list ascii * float) o h' l :
  textOf (mapChain fst (h, (o, h') :: l)) = fst h ++ o :: textOf (mapChain fst (h', l)).
Proof. unfold textOf, mapChain. simpl. reflexivity. Qed.

Lemma described_cons h o h' l :
  described (h, (o, h') :: l) ->
  operand ev (fst h) (snd h) /\ isOper o = true /\ described (h', l).
Proof.
  intros [[Hh Hl] Ho]. simpl in *.
  apply Forall_cons in Hl as [Hh' Hl]. apply Forall_cons in Ho as [Ho' Ho].
  repeat split; assumption.
Qed.

(** The loop stores the values and the operators of the chain after the
    [length pre] tokens already there. *)
Lemma tokenize_operands l : forall h pre junk opre junko left,
  described (h, l) ->
  length pre = length opre ->
  length (pre ++ junk) = 50 -> length (opre ++ junko) = 50 ->
  length pre + S (length l) <= 50 -> length l < left ->
  exists junk' junko',
    tokenize m ev false left
      (Locals (textOf (mapChain fst (h, l))) (pre ++ junk) (opre ++ junko) (length pre))
    = inr (Locals [] (pre ++ values (mapChain snd (h, l)) ++ junk')
             (opre ++ opers (mapChain snd (h, l)) ++ junko')
             (length pre + S (length l)))
    /\ length (pre ++ values (mapChain snd (h, l)) ++ junk') = 50
    /\ length (opre ++ opers (mapChain snd (h, l)) ++ junko') = 50.
Proof.
  induction l as [| [o h'] l IH]; intros h pre junk opre junko left Hd Hk L1 L2 Hn Hl.
  - destruct Hd as [[Hh _] _]. cbn [fst snd] in Hh.
    destruct left as [| left]; [simpl in Hl; lia |].
    destruct junk as [| x junk]; [rewrite length_app in L1; simpl in *; lia |].
    exists junk, junko.
    pose proof (tokenStep_operand (fst h) (snd h) [] (fst h ++ []) (pre ++ x :: junk)
                  (opre ++ junko) (length pre) Hh eq_refl ltac:(simpl in Hn; lia) eq_refl) as Hs.
    unfold textOf, mapChain. cbn [fst snd map flat_map values opers].
    erewrite tokenize_stepped; [| | reflexivity | exact Hs].
    + rewrite tokenize_end by reflexivity. rewrite insert_after.
      split; [| split].
      * unfold values. simpl. do 2 f_equal. lia.
      * unfold values. rewrite length_app in *. simpl in *. lia.
      * exact L2.
    + cbn [ptr]. rewrite app_nil_r. now apply operand_nonempty in Hh.
  - apply described_cons in Hd as (Hh & Ho & Hd).
    destruct left as [| left]; [simpl in Hl; lia |].
    destruct junk as [| x junk]; [rewrite length_app in L1; simpl in *; lia |].
    destruct junko as [| y junko]; [rewrite length_app in L2; simpl in *; lia |].
    rewrite textOf_cons.
    pose proof (tokenStep_operand (fst h) (snd h) (o :: textOf (mapChain fst (h', l)))
                  _ (pre ++ x :: junk) (opre ++ y :: junko) (length pre)
                  Hh Ho ltac:(simpl in Hn; lia) eq_refl) as Hs.
    cbn iota in Hs.
    erewrite tokenize_stepped; [| | reflexivity | exact Hs].
    + rewrite insert_after.
      replace (<[length pre := o]> (opre ++ y :: junko)) with (opre ++ o :: junko)
        by (rewrite Hk; symmetry; apply insert_after).
      destruct (IH h' (pre ++ [snd h]) junk (opre ++ [o]) junko left Hd) as (junk' & junko' & E & La & Lb).
      * rewrite !length_app. simpl. lia.
      * rewrite <- app_assoc. rewrite length_app in *. simpl in *. lia.
      * rewrite <- app_assoc. rewrite length_app in *. simpl in *. lia.
      * rewrite length_app. simpl in *. lia.
      * simpl in Hl. lia.
      * exists junk', junko'.
        repeat rewrite <- app_assoc in E. repeat rewrite <- app_assoc in La.
        repeat rewrite <- app_assoc in Lb. rewrite length_app in E. simpl in E.
        replace (S (length pre)) with (length pre + 1) by lia.
        rewrite E. unfold values, opers, mapChain in *. simpl in *.
        repeat split; [do 2 f_equal; lia | assumption | assumption].
    + cbn [ptr]. intros E. apply app_eq_nil in E as [_ E]. discriminate.
Qed.

(** With more operands than free slots the loop ends at the capacity
    check. *)
Lemma tokenize_operands_overflow l : forall h tk op n left,
  described (h, l) -> n <= 50 -> 50 < n + S (length l) -> 50 < left + n ->
  tokenize m ev false left (Locals (textOf (mapChain fst (h, l))) tk op n)
  = inl (Fail TokenCapacityExceeded).
Proof.
  induction l as [| [o h'] l IH]; intros h tk op n left Hd Hn Hover Hl.
  - assert (n = 50) as -> by (simpl in Hover; lia).
    destruct left as [| left]; [lia |].
    destruct Hd as [[Hh%operand_nonempty _] _]. cbn [fst] in Hh.
    unfold textOf, mapChain. cbn [fst snd map flat_map]. rewrite app_nil_r.
    simpl. destruct (fst h); [contradiction | reflexivity].
  - apply described_cons in Hd as (Hh & Ho & Hd).
    destruct left as [| left]; [lia |].
    rewrite textOf_cons.
    destruct (Nat.eq_dec n 50) as [-> | Hne].
    + simpl. destruct (fst h ++ o :: textOf (mapChain fst (h', l))) eqn:E; [| reflexivity].
      apply app_eq_nil in E as [_ E]. discriminate.
    + pose proof (tokenStep_operand (fst h) (snd h) (o :: textOf (mapChain fst (h', l)))
                    _ tk op n Hh Ho ltac:(lia) eq_refl) as Hs.
      cbn iota in Hs.
      erewrite tokenize_stepped; [| | reflexivity | exact Hs].
      * apply IH; auto; simpl in *; lia.
      * cbn [ptr]. intros E. apply app_eq_nil in E as [_ E]. discriminate.
Qed.

End Operands.

Section Body.

Variable m : libm.

(** A call of [evaluate] on the text of a chain of operands, with [self]
    evaluating the groups. *)
Lemma evaluateBody_operands self depth c :
  described (fun sub => self sub (depth + 1)) c ->
  S (length (snd c)) <= 50 -> depth <= 1000 ->
  evaluateBody m false self (textOf (mapChain fst c)) depth
  = chainReduce m (mapChain snd c).
Proof.
  intros Hd Hn Hdepth. destruct c as [h l]. unfold evaluateBody.
  assert (Hne : textOf (mapChain fst (h, l)) <> []).
  { destruct Hd as [[Hh%operand_nonempty _] _]. cbn [fst] in Hh.
    unfold textOf, mapChain. cbn [fst snd]. intros E. now apply app_eq_nil in E as [? _]. }
  replace (length (textOf (mapChain fst (h, l))) <? 1) with false
    by (symmetry; apply Nat.ltb_ge; destruct (textOf (mapChain fst (h, l))); [contradiction | simpl; lia]).
  replace (1000 <? depth) with false by (symmetry; apply Nat.ltb_ge; lia).
  destruct (tokenize_operands m (fun sub => self sub (depth + 1)) l h []
              (replicate 50 0%float) [] (replicate 50 NUL) runawayLimit Hd eq_refl)
    as (junk' & junko' & E & La & Lb);
    [apply length_replicate | apply length_replicate | simpl in *; lia
    | unfold runawayLimit; simpl in Hn; lia |].
  unfold initLocals. cbn [app length] in E. rewrite E.
  apply reduce_chain. cbn [app] in La, Lb.
  replace (0 + S (length l)) with (length (values (mapChain snd (h, l))))
    by (unfold values, mapChain; simpl; now rewrite !length_map).
  now apply holds_intro.
Qed.

Lemma evaluateBody_overflow self depth c :
  described (fun sub => self sub (depth + 1)) c ->
  50 < S (length (snd c)) -> depth <= 1000 ->
  evaluateBody m false self (textOf (mapChain fst c)) depth = Fail TokenCapacityExceeded.
Proof.
  intros Hd Hn Hdepth. destruct c as [h l]. unfold evaluateBody.
  assert (Hne : textOf (mapChain fst (h, l)) <> []).
  { destruct Hd as [[Hh%operand_nonempty _] _]. cbn [fst] in Hh.
    unfold textOf, mapChain. cbn [fst snd]. intros E. now apply app_eq_nil in E as [? _]. }
  replace (length (textOf (mapChain fst (h, l))) <? 1) with false
    by (symmetry; apply Nat.ltb_ge; destruct (textOf (mapChain fst (h, l))); [contradiction | simpl; lia]).
  replace (1000 <? depth) with false by (symmetry; apply Nat.ltb_ge; lia).
  unfold initLocals.
  rewrite (tokenize_operands_overflow m (fun sub => self sub (depth + 1)) l h); auto;
    try (unfold runawayLimit); simpl in *; lia.
Qed.

End Body.

(* ===================================================================== *)
(** ** Expressions: text, operands and value *)

Lemma mapChain_compose {A B C} (f : A -> B) (g : B -> C) c :
  mapChain g (mapChain f c) = mapChain (fun x => g (f x)) c.
Proof. unfold mapChain. simpl. now rewrite map_map. Qed.

Lemma textOf_join c o c' : textOf (joinChain c o c') = textOf c ++ o :: textOf c'.
Proof.
  unfold textOf, joinChain. simpl. rewrite flat_map_app. simpl.
  now rewrite <- !app_assoc.
Qed.

Lemma chainAll_join {A} (P : A -> Prop) c o c' :
  chainAll P (joinChain c o c') <-> chainAll P c /\ chainAll P c'.
Proof.
  unfold chainAll, joinChain. simpl. rewrite Forall_app, Forall_cons. simpl. tauto.
Qed.

Lemma chainAll_map {A B} (g : A -> B) (P : B -> Prop) c :
  chainAll P (mapChain g c) <-> chainAll (fun x => P (g x)) c.
Proof.
  unfold chainAll, mapChain. simpl. rewrite Forall_map. simpl. tauto.
Qed.

Lemma chainAll_impl {A} (P Q : A -> Prop) c :
  (forall x, P x -> Q x) -> chainAll P c -> chainAll Q c.
Proof.
  intros H [H1 H2]. split; [auto |]. eapply Forall_impl; [exact H2 |]. simpl. auto.
Qed.

(** *** The text is the text of the operands *)

Lemma textOf_single {A} (g : A -> list ascii) a : textOf (mapChain g (a, [])) = g a.
Proof. unfold textOf, mapChain. simpl. apply app_nil_r. Qed.

Lemma printFactor_atoms f : printFactor f = textOf (mapChain printAtom (atomsFactor f)).
Proof.
  induction f as [a | f IH a]; cbn [printFactor atomsFactor].
  - now rewrite textOf_single.
  - now rewrite mapChain_join, textOf_join, IH, textOf_single.
Qed.

Lemma printTerm_atoms t : printTerm t = textOf (mapChain printAtom (atomsTerm t)).
Proof.
  induction t as [f | t IH o f]; simpl; [apply printFactor_atoms |].
  now rewrite mapChain_join, textOf_join, IH, printFactor_atoms.
Qed.

Lemma printExpr_atoms e : printExpr e = textOf (mapChain printAtom (atomsExpr e)).
Proof.
  induction e as [t | e IH o t]; simpl; [apply printTerm_atoms |].
  now rewrite mapChain_join, textOf_join, IH, printTerm_atoms.
Qed.

(** *** Counting the operands *)

Lemma length_join {A} (c c' : chainOf A) o :
  S (length (snd (joinChain c o c'))) = S (length (snd c)) + S (length (snd c')).
Proof. unfold joinChain. simpl. rewrite length_app. simpl. lia. Qed.

Lemma operandsFactor_atoms f : operandsFactor f = S (length (snd (atomsFactor f))).
Proof.
  induction f as [a | f IH a]; [reflexivity |].
  cbn [operandsFactor atomsFactor]. rewrite length_join, IH. simpl. lia.
Qed.

Lemma operandsTerm_atoms t : operandsTerm t = S (length (snd (atomsTerm t))).
Proof.
  induction t as [f | t IH o f]; [apply operandsFactor_atoms |].
  cbn [operandsTerm atomsTerm]. now rewrite length_join, IH, operandsFactor_atoms.
Qed.

Lemma operands_atoms e : operands e = S (length (snd (atomsExpr e))).
Proof.
  induction e as [t | e IH o t]; [apply operandsTerm_atoms |].
  cbn [operands atomsExpr]. now rewrite length_join, IH, operandsTerm_atoms.
Qed.

(** *** The operators between the operands *)

Lemma opers_join {A} (c c' : chainOf A) o :
  Forall (fun x => isOper (fst x) = true) (snd c) -> isOper o = true ->
  Forall (fun x => isOper (fst x) = true) (snd c') ->
  Forall (fun x => isOper (fst x) = true) (snd (joinChain c o c')).
Proof. unfold joinChain. simpl. rewrite Forall_app, Forall_cons. simpl. tauto. Qed.

Lemma opers_atomsFactor f : Forall (fun x => isOper (fst x) = true) (snd (atomsFactor f)).
Proof.
  induction f as [a | f IH a]; [constructor |].
  cbn [atomsFactor]. apply opers_join; [exact IH | reflexivity | constructor].
Qed.

Lemma opers_atomsTerm t : Forall (fun x => isOper (fst x) = true) (snd (atomsTerm t)).
Proof.
  induction t as [f | t IH o f]; [apply opers_atomsFactor |].
  cbn [atomsTerm]. apply opers_join; [exact IH | now destruct o | apply opers_atomsFactor].
Qed.

Lemma opers_atomsExpr e : Forall (fun x => isOper (fst x) = true) (snd (atomsExpr e)).
Proof.
  induction e as [t | e IH o t]; [apply opers_atomsTerm |].
  cbn [atomsExpr]. apply opers_join; [exact IH | now destruct o | apply opers_atomsTerm].
Qed.

(** *** Well-formedness and nesting of the operands *)

Lemma atomsFactor_wf f :
  wfFactor f -> chainAll (fun a => wfAtom a /\ nestingAtom a <= nestingFactor f) (atomsFactor f).
Proof.
  induction f as [a | f IH a]; intros H.
  - split; [split; [exact H | reflexivity] | constructor].
  - destruct H as [Hf Ha]. cbn [atomsFactor nestingFactor]. apply chainAll_join. split.
    + eapply chainAll_impl; [| exact (IH Hf)]. simpl. intros x [? ?]. split; [assumption | lia].
    + split; [split; [assumption | simpl; lia] | constructor].
Qed.

Lemma atomsTerm_wf t :
  wfTerm t -> chainAll (fun a => wfAtom a /\ nestingAtom a <= nestingTerm t) (atomsTerm t).
Proof.
  induction t as [f | t IH o f]; intros H; [now apply atomsFactor_wf |].
  destruct H as [Ht Hf]. cbn [atomsTerm nestingTerm]. apply chainAll_join. split.
  - eapply chainAll_impl; [| exact (IH Ht)]. simpl. intros x [? ?]. split; [assumption | lia].
  - eapply chainAll_impl; [| exact (atomsFactor_wf f Hf)]. simpl.
    intros x [? ?]. split; [assumption | lia].
Qed.

Lemma atomsExpr_wf e :
  wfExpr e -> chainAll (fun a => wfAtom a /\ nestingAtom a <= nesting e) (atomsExpr e).
Proof.
  induction e as [t | e IH o t]; intros H; [now apply atomsTerm_wf |].
  destruct H as [He Ht]. cbn [atomsExpr nesting]. apply chainAll_join. split.
  - eapply chainAll_impl; [| exact (IH He)]. simpl. intros x [? ?]. split; [assumption | lia].
  - eapply chainAll_impl; [| exact (atomsTerm_wf t Ht)]. simpl.
    intros x [? ?]. split; [assumption | lia].
Qed.

(** *** The text of a well-formed expression is balanced and has no NUL *)

Lemma balancedFrom_plain t r : forall lvl,
  forallb plain t = true -> balancedFrom lvl (t ++ r) = balancedFrom lvl r.
Proof.
  induction t as [| c t IH]; intros lvl H; [reflexivity |].
  simpl in *. apply andb_prop in H as [Hc Ht].
  unfold plain in Hc.
  apply andb_prop in Hc as [[_ Ho%negb_true_iff]%andb_prop Hc%negb_true_iff].
  rewrite Ho, Hc. now apply IH.
Qed.

Lemma clean_plain t : forallb plain t = true -> clean t = true.
Proof.
  unfold clean. intros H. apply forallb_forall. intros c Hc.
  rewrite forallb_forall in H. specialize (H c Hc). unfold plain in H.
  now apply andb_prop in H as [[? _]%andb_prop _].
Qed.

Lemma clean_app s t : clean (s ++ t) = clean s && clean t.
Proof. unfold clean. apply forallb_app. Qed.

Definition tidy (s : list ascii) : Prop :=
  (forall lvl r, balancedFrom lvl (s ++ r) = balancedFrom lvl r) /\ clean s = true.

Lemma tidy_app s t : tidy s -> tidy t -> tidy (s ++ t).
Proof.
  intros [Bs Cs] [Bt Ct]. split.
  - intros lvl r. now rewrite <- app_assoc, Bs, Bt.
  - now rewrite clean_app, Cs, Ct.
Qed.

Lemma tidy_char c : plain c = true -> tidy [c].
Proof.
  intros H. split.
  - intros lvl r. apply (balancedFrom_plain [c]). simpl. now rewrite H.
  - apply clean_plain. simpl. now rewrite H.
Qed.

Lemma tidy_print :
  (forall a, wfAtom a -> tidy (printAtom a))
  /\ (forall f, wfFactor f -> tidy (printFactor f))
  /\ (forall t, wfTerm t -> tidy (printTerm t))
  /\ (forall e, wfExpr e -> tidy (printExpr e)).
Proof.
  apply expr_mutind; simpl.
  - intros text val (_ & Hp & _). split.
    + intros lvl r. now apply balancedFrom_plain.
    + now apply clean_plain.
  - intros e IH (He & _ & _). destruct (IH He) as [Be Ce]. split.
    + intros lvl r. simpl. rewrite <- app_assoc, Be. reflexivity.
    + change ("("%char :: printExpr e ++ [")"%char])
        with (["("%char] ++ printExpr e ++ [")"%char]).
      rewrite !clean_app, Ce. reflexivity.
  - auto.
  - intros f IHf a IHa [Hf Ha].
    change (printFactor f ++ "^"%char :: printAtom a)
      with (printFactor f ++ ["^"%char] ++ printAtom a).
    auto using tidy_app, tidy_char.
  - auto.
  - intros t IHt o f IHf [Ht Hf].
    change (printTerm t ++ mulChar o :: printFactor f)
      with (printTerm t ++ [mulChar o] ++ printFactor f).
    apply tidy_app; [auto |]. apply tidy_app; [| auto]. apply tidy_char. now destruct o.
  - auto.
  - intros e IHe o t IHt [He Ht].
    change (printExpr e ++ addChar o :: printTerm t)
      with (printExpr e ++ [addChar o] ++ printTerm t).
    apply tidy_app; [auto |]. apply tidy_app; [| auto]. apply tidy_char. now destruct o.
Qed.

Lemma balanced_printExpr e : wfExpr e -> balanced (printExpr e) = true.
Proof.
  intros H. destruct tidy_print as (_ & _ & _ & T). destruct (T e H) as [B _].
  unfold balanced. specialize (B 0 []). now rewrite app_nil_r in B.
Qed.

Lemma cstring_clean s : clean s = true -> cstring s = s.
Proof.
  induction s as [| c s IH]; [reflexivity |].
  unfold clean. simpl. intros [Hc Hs]%andb_prop.
  apply negb_true_iff in Hc. rewrite Hc. f_equal. now apply IH.
Qed.

Lemma cstring_printExpr e : wfExpr e -> cstring (printExpr e) = printExpr e.
Proof.
  intros H. destruct tidy_print as (_ & _ & _ & T). destruct (T e H) as [_ C].
  now apply cstring_clean.
Qed.

(** *** The evaluation of an expression *)

Section Evaluation.

Variable m : libm.

(** The operands of [e] with their texts and values. *)
Definition operandsOf (e : expr) : chainOf (list ascii * float) :=
  mapChain (fun a => (printAtom a, valueAtom m a)) (atomsExpr e).

Lemma operandsOf_text e : textOf (mapChain fst (operandsOf e)) = printExpr e.
Proof. unfold operandsOf. now rewrite mapChain_compose, printExpr_atoms. Qed.

Lemma operandsOf_values e : mapChain snd (operandsOf e) = valuesExpr m e.
Proof. unfold operandsOf. now rewrite mapChain_compose. Qed.

Lemma operandsOf_length e : S (length (snd (operandsOf e))) = operands e.
Proof. unfold operandsOf, mapChain. simpl. now rewrite length_map, operands_atoms. Qed.

(** The operands of a well-formed expression are operands for [ev] when
    [ev] evaluates the groups among them. *)
Lemma operandsOf_described ev e :
  wfExpr e ->
  (forall e', wfExpr e' -> operands e' <= 50 -> S (nesting e') <= nesting e ->
              ev (printExpr e') = Done (valueExpr m e')) ->
  described ev (operandsOf e).
Proof.
  intros Hwf Hev. split.
  - unfold operandsOf. apply chainAll_map. simpl.
    eapply chainAll_impl; [| exact (atomsExpr_wf e Hwf)]. simpl.
    intros [text val | e'] [Ha Hn]; simpl in *.
    + now left.
    + destruct Ha as (He' & Hops & Hlen). right. exists (printExpr e').
      repeat split; auto using balanced_printExpr.
  - unfold operandsOf, mapChain. simpl. rewrite Forall_map. simpl.
    apply opers_atomsExpr.
Qed.

Lemma evaluateRec_expr calls : forall e depth,
  wfExpr e -> operands e <= 50 ->
  nesting e < calls -> depth + nesting e <= 1000 ->
  evaluateRec m false calls (printExpr e) depth = Done (valueExpr m e).
Proof.
  induction calls as [| calls IH]; intros e depth Hwf Hops Hcalls Hdepth; [lia |].
  change (evaluateRec m false (S calls) (printExpr e) depth)
    with (evaluateBody m false (evaluateRec m false calls) (printExpr e) depth).
  rewrite <- operandsOf_text, evaluateBody_operands.
  - rewrite operandsOf_values. apply chainReduce_expr.
  - apply operandsOf_described; [exact Hwf |].
    intros e' He' Hops' Hn. apply IH; auto; lia.
  - now rewrite operandsOf_length.
  - lia.
Qed.

(** An expression with more than 50 operands at its outermost level. *)
Lemma evaluateRec_overflow calls e depth :
  wfExpr e -> 50 < operands e ->
  nesting e <= calls -> depth + nesting e <= 1000 ->
  evaluateRec m false (S calls) (printExpr e) depth = Fail TokenCapacityExceeded.
Proof.
  intros Hwf Hops Hcalls Hdepth.
  change (evaluateRec m false (S calls) (printExpr e) depth)
    with (evaluateBody m false (evaluateRec m false calls) (printExpr e) depth).
  rewrite <- operandsOf_text, evaluateBody_overflow; auto.
  - apply operandsOf_described; [exact Hwf |].
    intros e' He' Hops' Hn. apply evaluateRec_expr; auto; lia.
  - now rewrite operandsOf_length.
  - lia.
Qed.

(** [evaluate(text of e, 0)]. *)
Lemma evaluate_expr e :
  wfExpr e -> operands e <= 50 -> nesting e <= 1000 ->
  evaluate m false (printExpr e) 0 = Done (valueExpr m e).
Proof.
  intros Hwf Hops Hn. unfold evaluate. rewrite cstring_printExpr by assumption.
  apply evaluateRec_expr; auto; simpl; lia.
Qed.

Lemma evaluate_overflow e :
  wfExpr e -> 50 < operands e -> nesting e <= 1000 ->
  evaluate m false (printExpr e) 0 = Fail TokenCapacityExceeded.
Proof.
  intros Hwf Hops Hn. unfold evaluate. rewrite cstring_printExpr by assumption.
  apply evaluateRec_overflow; auto; simpl; lia.
Qed.

End Evaluation.

(* ===================================================================== *)
(** ** Numeric literals *)

Lemma span_all p t : forall s,
  forallb p s = true -> span p (s ++ t) = (s ++ fst (span p t), snd (span p t)).
Proof.
  induction s as [| c s IH]; simpl; intros H.
  - now destruct (span p t).
  - apply andb_prop in H as [-> Hs]. now rewrite (IH Hs).
Qed.

(** A text of numeric-class characters with a point in it is converted by
    [strtod], whatever follows. *)
Lemma readNumber_float t rest :
  forallb isNumeric t = true -> existsb (Ascii.eqb ".") t = true ->
  readNumber (t ++ rest) = strtod (t ++ rest).
Proof.
  intros Hn Hp. unfold readNumber. rewrite (span_all isNumeric rest t Hn).
  now rewrite existsb_app, Hp.
Qed.

(** When both conversions agree, the run of numeric-class characters does
    not matter. *)
Lemma readNumber_both p v r :
  strtod p = (v, r) ->
  (let '(t, r') := strtoll p in (double_of_Z t, r')) = (v, r) ->
  readNumber p = (v, r).
Proof.
  intros Hd Hl. unfold readNumber.
  destruct (span isNumeric p) as [run ?].
  now destruct (existsb (Ascii.eqb ".") run).
Qed.

Lemma isOper_cases c :
  isOper c = true ->
  c = "+"%char \/ c = "-"%char \/ c = "*"%char \/ c = "/"%char
  \/ c = "^"%char \/ c = "%"%char.
Proof.
  destruct c as [[] [] [] [] [] [] [] []]; intros H; try discriminate H; auto 10.
Qed.

Lemma follows_cases rest :
  follows rest = true ->
  rest = [] \/ exists c rest', rest = c :: rest'
     /\ (c = "+"%char \/ c = "-"%char \/ c = "*"%char \/ c = "/"%char
         \/ c = "^"%char \/ c = "%"%char).
Proof.
  destruct rest as [| c rest']; [now left |].
  intros H%isOper_cases. right. eauto.
Qed.

(** The last part of [literal] for a given text: by cases on what follows,
    the conversions being computed up to the operator. *)
Ltac after_literal :=
  let rest := fresh "rest" in
  let rest' := fresh "rest" in
  let H := fresh "H" in
  intros rest H; apply follows_cases in H;
  destruct H as [-> | (? & rest' & -> & [-> | [-> | [-> | [-> | [-> | ->]]]]])];
  [| destruct rest' .. ]; vm_compute; reflexivity.

Ltac literal_int :=
  split; [split; reflexivity |];
  split; [reflexivity |];
  let rest := fresh "rest" in
  let H := fresh "H" in
  intros rest H; apply readNumber_both; revert rest H; after_literal.

Ltac literal_float :=
  split; [split; reflexivity |];
  split; [reflexivity |];
  let rest := fresh "rest" in
  let H := fresh "H" in
  intros rest H; rewrite readNumber_float by reflexivity; revert rest H; after_literal.

Lemma literal_0 : literal (chars "0") 0.
Proof. literal_int. Qed.

Lemma literal_1 : literal (chars "1") 1.
Proof. literal_int. Qed.

Lemma literal_2 : literal (chars "2") 2.
Proof. literal_int. Qed.

Lemma literal_3 : literal (chars "3") 3.
Proof. literal_int. Qed.

Lemma literal_4 : literal (chars "4") 4.
Proof. literal_int. Qed.

Lemma literal_10 : literal (chars "10") 10.
Proof. literal_int. Qed.

Lemma literal_5_5 : literal (chars "5.5") 5.5.
Proof. literal_float. Qed.

Lemma literal_minus_2 : literal (chars "-2") (-2).
Proof. literal_int. Qed.

Lemma literal_minus_0_0 : literal (chars "-0.0") neg_zero.
Proof. literal_float. Qed.

(* ===================================================================== *)
(** ** Precedence, capacity and division by zero *)

Lemma wf_two_plus_three_times_four : wfExpr two_plus_three_times_four.
Proof. repeat split; first [apply literal_2 | apply literal_3 | apply literal_4]. Qed.

Lemma wf_two_plus_three_in_parens_times_four : wfExpr two_plus_three_in_parens_times_four.
Proof.
  simpl. split; [| apply literal_4].
  split; [split; [apply literal_2 | apply literal_3] | lia].
Qed.

Lemma wf_onesExpr n : wfExpr (onesExpr n).
Proof. induction n; simpl; [apply literal_1 | split; [assumption | apply literal_1]]. Qed.

Lemma operands_onesExpr n : operands (onesExpr n) = S n.
Proof. induction n; simpl; [reflexivity | lia]. Qed.

Lemma nesting_onesExpr n : nesting (onesExpr n) = 0.
Proof. induction n; simpl; [reflexivity | now rewrite IHn]. Qed.

(** C1 as the code has it: for an expression of literals, operators and
    parentheses with at most 50 operands at each level, at most 1000 levels
    of parentheses, groups that fit the subexpression buffer and literals
    that convert to one value whatever follows them, [evaluate] returns the
    value by precedence, each tier associating to the left and [%] being
    [fmod]; [2+3*4] is 14, [10%3+1] is 2 and [5.5%2] is 1.5. *)
Theorem precedence_refinement (m : libm) :
  (forall e, wfExpr e -> operands e <= 50 -> nesting e <= 1000 ->
             evaluate m false (printExpr e) 0 = Done (valueExpr m e))
  /\ calc m "2+3*4" = Done 14
  /\ calc m "10%3+1" = Done 2
  /\ calc m "5.5%2" = Done 1.5.
Proof.
  split; [intros e; apply evaluate_expr |].
  repeat split; run.
Qed.

Lemma precedence_refinement_witness :
  (printExpr two_plus_three_times_four = chars "2+3*4"
   /\ evaluate refLibm false (printExpr two_plus_three_times_four) 0 = Done 14)
  /\ (printExpr two_plus_three_in_parens_times_four = chars "(2+3)*4"
      /\ evaluate refLibm false (printExpr two_plus_three_in_parens_times_four) 0 = Done 20).
Proof.
  split; (split; [reflexivity |]).
  - apply (proj1 (precedence_refinement refLibm) two_plus_three_times_four
             wf_two_plus_three_times_four); simpl; lia.
  - apply (proj1 (precedence_refinement refLibm) two_plus_three_in_parens_times_four
             wf_two_plus_three_in_parens_times_four); simpl; lia.
Defined.

(** As stated C1 fails: 51 ones joined by [+] are rejected, and the text
    [010] is worth 8 before [+1.5] and 10 before [-1.5]. *)
Lemma precedence_counterexample :
  evaluate refLibm false (printExpr (onesExpr 50)) 0 = Fail TokenCapacityExceeded
  /\ operands (onesExpr 50) = 51
  /\ calc refLibm "010+1.5" = Done 9.5
  /\ calc refLibm "010-1.5" = Done 8.5.
Proof. repeat split; run. Qed.

(** With literals and groups for operands the bound is exact: a well-formed
    expression with exactly 50 operands at its outermost level evaluates to
    its value; with 51 (or more) it fails with [TokenCapacityExceeded], 0.0
    is returned and [errorFlag] is set. *)
Lemma token_capacity (m : libm) (e : expr)
    (Hwf : wfExpr e) (Hn : nesting e <= 1000) :
  (operands e = 50 -> evaluate m false (printExpr e) 0 = Done (valueExpr m e))
  /\ (50 < operands e ->
      evaluate m false (printExpr e) 0 = Fail TokenCapacityExceeded
      /\ returned (evaluate m false (printExpr e) 0) = Some 0%float
      /\ flagAfter false (evaluate m false (printExpr e) 0) = Some true).
Proof.
  split.
  - intros H. apply evaluate_expr; auto. lia.
  - intros H. rewrite (evaluate_overflow m e Hwf H Hn). auto.
Qed.

Lemma token_capacity_witness :
  (operands (onesExpr 49) = 50
   /\ evaluate refLibm false (printExpr (onesExpr 49)) 0 = Done 50)
  /\ (operands (onesExpr 50) = 51
      /\ evaluate refLibm false (printExpr (onesExpr 50)) 0 = Fail TokenCapacityExceeded).
Proof.
  split; (split; [reflexivity |]).
  - apply (proj1 (token_capacity refLibm (onesExpr 49) (wf_onesExpr 49)
                    ltac:(rewrite nesting_onesExpr; lia))).
    reflexivity.
  - apply (proj2 (token_capacity refLibm (onesExpr 50) (wf_onesExpr 50)
                    ltac:(rewrite nesting_onesExpr; lia))).
    simpl. lia.
Defined.

(** C7 at a name followed by a minus sign.  After 48 ones, [pi-2] makes the
    49th and the 50th token in one iteration with no operator between them
    (the numeric branch takes the [-], lines 663-689): the 50 tokens are
    there at the end of the loop and the reduction fails with
    [InvalidOperatorInLastPhase].  After 49 ones, [pi] is stored in
    [tokens[49]] and [-2] is written to [tokens[50]], past the array,
    before the capacity check of line 518 is reached again.  With [+] for
    [-] the two texts are at the bound: the first is worth 48 + pi + 2, the
    second fails with [TokenCapacityExceeded]. *)
Theorem token_capacity_name_minus (m : libm) :
  evaluate m false (printExpr (onesExpr 47) ++ chars "+pi-2") 0
    = Fail InvalidOperatorInLastPhase
  /\ (forall ev,
        match tokenize m ev false runawayLimit
                (initLocals (printExpr (onesExpr 47) ++ chars "+pi-2")) with
        | inr st => numTokens st
        | inl _ => 0
        end = 50)
  /\ evaluate m false (printExpr (onesExpr 48) ++ chars "+pi-2") 0 = Undefined
  /\ evaluate m false (printExpr (onesExpr 47) ++ chars "+pi+2") 0 = Done (48 + M_PI + 2)
  /\ evaluate m false (printExpr (onesExpr 48) ++ chars "+pi+2") 0
       = Fail TokenCapacityExceeded.
Proof.
  split; [run |]. split; [intros ev; run |]. repeat split; run.
Qed.

(** *** Division and modulus by zero *)

Lemma isZero_zero y : isZero y = true -> exists s, Prim2SF y = S754_zero s.
Proof.
  unfold isZero. rewrite FloatAxioms.eqb_spec.
  change (Prim2SF 0) with (S754_zero false).
  destruct (Prim2SF y) as [s | s | | s ? ?]; try destruct s; try discriminate; eauto.
Qed.

Lemma div_by_zero x y : isZero y = true -> notFinite (x / y) = true.
Proof.
  intros [s Hy]%isZero_zero. unfold notFinite. rewrite div_spec, Hy.
  now destruct (Prim2SF x).
Qed.

Lemma fmod_by_zero x y : isZero y = true -> fmod x y = nan.
Proof.
  intros [s Hy]%isZero_zero. unfold fmod. rewrite Hy.
  now destruct (Prim2SF x).
Qed.

(** The reduction pass has no test for a zero divisor: with an operator in
    every slot between the tokens it ends with a value. *)
Lemma reduce_total m st c :
  holds st c -> Forall (fun x => isOper (fst x) = true) (snd c) ->
  exists v, reduce m st = Done v.
Proof.
  intros Hh Hc. rewrite (reduce_chain m st c Hh). now apply chainReduce_total.
Qed.

Lemma wf_two_plus_one_over_zero : wfExpr two_plus_one_over_zero.
Proof. repeat split; first [apply literal_2 | apply literal_1 | apply literal_0]. Qed.

Lemma wf_one_mod_zero_in_parens_times_two : wfExpr one_mod_zero_in_parens_times_two.
Proof.
  simpl. split; [| apply literal_2].
  split; [split; [apply literal_1 | apply literal_0] | lia].
Qed.

Lemma wf_one_over_minus_zero_in_parens_plus_one :
  wfExpr one_over_minus_zero_in_parens_plus_one.
Proof.
  simpl. split; [| apply literal_1].
  split; [split; [apply literal_1 | apply literal_minus_0_0] | lia].
Qed.



(* ===================================================================== *)
(** ** An operator appended to the text *)

(** *** The conversions do not read an operator character *)

Lemma span_snoc p c : forall s,
  p c = false -> span p (s ++ [c]) = (fst (span p s), snd (span p s) ++ [c]).
Proof.
  induction s as [| x s IH]; simpl; intros Hc.
  - now rewrite Hc.
  - destruct (p x); [| reflexivity].
    rewrite (IH Hc). now destruct (span p s).
Qed.

Section OperatorChar.

Variable op : ascii.
Hypothesis Hop : isOper op = true.

Ltac by_cases :=
  destruct (isOper_cases op Hop) as [-> | [-> | [-> | [-> | [-> | ->]]]]]; reflexivity.

Lemma oper_not_alpha : isAlpha op = false.
Proof. by_cases. Qed.

Lemma oper_not_open : openParen op = false.
Proof. by_cases. Qed.

Lemma oper_not_close : closeParen op = false.
Proof. by_cases. Qed.

Lemma oper_not_point : Ascii.eqb "." op = false.
Proof. by_cases. Qed.

Lemma oper_not_digit base : is_digit base op = false.
Proof. unfold is_digit. by_cases. Qed.

Lemma oper_not_x : is_x op = false.
Proof. by_cases. Qed.

Lemma oper_not_zero : Ascii.eqb op "0" = false.
Proof. by_cases. Qed.

Lemma oper_is_point : Ascii.eqb op "." = false.
Proof. by_cases. Qed.

Lemma oper_not_mark :
  Ascii.eqb op "e" || Ascii.eqb op "E" = false
  /\ Ascii.eqb op "p" || Ascii.eqb op "P" = false.
Proof. split; by_cases. Qed.

Lemma oper_nest n : nest n op = n.
Proof. unfold nest. now rewrite oper_not_open, oper_not_close. Qed.

Lemma sign_snoc s :
  s <> [] -> sign (s ++ [op]) = (fst (sign s), snd (sign s) ++ [op]).
Proof.
  destruct s as [| c s]; [congruence |]. intros _. simpl.
  destruct (Ascii.eqb c "-"); [reflexivity |]. now destruct (Ascii.eqb c "+").
Qed.

(** Without a digit after it, nothing of [op] and what it joins is read. *)
Lemma span_digit_oper base : span (is_digit base) [op] = ([], [op]).
Proof. simpl. now rewrite oper_not_digit. Qed.

Lemma strtoll_snoc s :
  s <> [] -> strtoll (s ++ [op]) = (fst (strtoll s), snd (strtoll s) ++ [op]).
Proof.
  intros Hs. unfold strtoll. rewrite (sign_snoc s Hs).
  destruct (sign s) as [neg s1]. cbn [fst snd].
  assert (Hbase :
    match s1 ++ [op] with
    | z :: x :: h :: _ =>
        if Ascii.eqb z "0" && is_x x && is_digit 16 h
        then (16%Z, skipn 2 (s1 ++ [op]))
        else if Ascii.eqb z "0" then (8%Z, s1 ++ [op]) else (10%Z, s1 ++ [op])
    | z :: _ => if Ascii.eqb z "0" then (8%Z, s1 ++ [op]) else (10%Z, s1 ++ [op])
    | [] => (10%Z, s1 ++ [op])
    end
    = let '(base, s2) :=
        match s1 with
        | z :: x :: h :: _ =>
            if Ascii.eqb z "0" && is_x x && is_digit 16 h
            then (16%Z, skipn 2 s1)
            else if Ascii.eqb z "0" then (8%Z, s1) else (10%Z, s1)
        | z :: _ => if Ascii.eqb z "0" then (8%Z, s1) else (10%Z, s1)
        | [] => (10%Z, s1)
        end in (base, s2 ++ [op])).
  { destruct s1 as [| z [| x [| h t]]]; simpl.
    - now rewrite oper_not_zero.
    - now destruct (Ascii.eqb z "0").
    - rewrite (oper_not_digit 16), andb_false_r. now destruct (Ascii.eqb z "0").
    - destruct (Ascii.eqb z "0" && is_x x && is_digit 16 h); [reflexivity |].
      now destruct (Ascii.eqb z "0"). }
  rewrite Hbase. clear Hbase.
  destruct (match s1 with
            | z :: x :: h :: _ =>
                if Ascii.eqb z "0" && is_x x && is_digit 16 h
                then (16%Z, skipn 2 s1)
                else if Ascii.eqb z "0" then (8%Z, s1) else (10%Z, s1)
            | z :: _ => if Ascii.eqb z "0" then (8%Z, s1) else (10%Z, s1)
            | [] => (10%Z, s1)
            end) as [base s2].
  rewrite (span_snoc _ op s2 (oper_not_digit base)).
  destruct (span (is_digit base) s2) as [ds rest]. cbn [fst snd].
  now destruct ds.
Qed.

Lemma mantissa_snoc base s :
  mantissa base (s ++ [op])
  = let '(ip, fp, rest) := mantissa base s in (ip, fp, rest ++ [op]).
Proof.
  unfold mantissa. rewrite (span_snoc _ op s (oper_not_digit base)).
  destruct (span (is_digit base) s) as [ip s1]. cbn [fst snd].
  destruct s1 as [| c s2]; simpl.
  - now rewrite oper_is_point.
  - destruct (Ascii.eqb c "."); [| reflexivity].
    rewrite (span_snoc _ op s2 (oper_not_digit base)).
    now destruct (span (is_digit base) s2).
Qed.

Lemma exponent_snoc lo up s :
  Ascii.eqb op lo || Ascii.eqb op up = false ->
  exponent lo up (s ++ [op])
  = (fst (exponent lo up s), snd (exponent lo up s) ++ [op]).
Proof.
  intros Hmark. unfold exponent. destruct s as [| c s1]; simpl.
  - now rewrite Hmark.
  - destruct (Ascii.eqb c lo || Ascii.eqb c up); [| reflexivity].
    destruct s1 as [| d s2].
    + simpl. destruct (Ascii.eqb op "-"); [reflexivity |].
      destruct (Ascii.eqb op "+"); [reflexivity |].
      simpl. now rewrite (oper_not_digit 10).
    + rewrite (sign_snoc (d :: s2)) by discriminate.
      destruct (sign (d :: s2)) as [neg s3]. cbn [fst snd].
      rewrite (span_snoc _ op s3 (oper_not_digit 10)).
      destruct (span (is_digit 10) s3) as [ds rest]. cbn [fst snd].
      now destruct ds.
Qed.

Lemma strtod_snoc s :
  s <> [] -> strtod (s ++ [op]) = (fst (strtod s), snd (strtod s) ++ [op]).
Proof.
  intros Hs. unfold strtod. rewrite (sign_snoc s Hs).
  destruct (sign s) as [neg s1]. cbn [fst snd].
  destruct oper_not_mark as [He Hp].
  set (hex1 := match s1 with z :: x :: s2 => _ | _ => None end).
  assert (Hhex :
    match s1 ++ [op] with
    | z :: x :: s2 =>
        if Ascii.eqb z "0" && is_x x then
          let '(ip, fp, s3) := mantissa 16 s2 in
          match ip ++ fp with
          | [] => None
          | ds =>
              let '(e, rest) := exponent "p" "P" s3 in
              Some (double_of_scaled neg (digits_val 16 0 ds) 2
                      (e - 4 * Z.of_nat (length fp)), rest)
          end
        else None
    | _ => None
    end
    = match hex1 with
      | Some (v, rest) => Some (v, rest ++ [op])
      | None => None
      end).
  { subst hex1. destruct s1 as [| z [| x s2]]; simpl.
    - reflexivity.
    - now rewrite oper_not_x, andb_false_r.
    - destruct (Ascii.eqb z "0" && is_x x); [| reflexivity].
      rewrite mantissa_snoc. destruct (mantissa 16 s2) as [[ip fp] s3].
      destruct (ip ++ fp) as [| d ds]; [reflexivity |].
      rewrite (exponent_snoc _ _ s3 Hp).
      now destruct (exponent "p" "P" s3). }
  rewrite Hhex. clear Hhex.
  destruct hex1 as [[v rest] |]; [reflexivity |].
  rewrite mantissa_snoc. destruct (mantissa 10 s1) as [[ip fp] s3].
  destruct (ip ++ fp) as [| d ds]; [reflexivity |].
  rewrite (exponent_snoc _ _ s3 He).
  now destruct (exponent "e" "E" s3).
Qed.

Lemma isFloat_snoc : forall s,
  existsb (Ascii.eqb ".") (fst (span isNumeric (s ++ [op])))
  = existsb (Ascii.eqb ".") (fst (span isNumeric s)).
Proof.
  induction s as [| c s IH]; simpl.
  - destruct (isNumeric op); cbn [fst existsb]; [| reflexivity].
    now rewrite oper_not_point.
  - destruct (isNumeric c); [| reflexivity].
    destruct (span isNumeric (s ++ [op])), (span isNumeric s). simpl in *. now rewrite IH.
Qed.

Lemma readNumber_snoc s :
  s <> [] -> readNumber (s ++ [op]) = (fst (readNumber s), snd (readNumber s) ++ [op]).
Proof.
  intros Hs. unfold readNumber.
  pose proof (isFloat_snoc s) as E.
  destruct (span isNumeric (s ++ [op])) as [run' ?], (span isNumeric s) as [run ?].
  cbn [fst] in E. rewrite E.
  destruct (existsb (Ascii.eqb ".") run).
  - now apply strtod_snoc.
  - rewrite (strtoll_snoc s Hs). now destruct (strtoll s).
Qed.

(** *** Parentheses *)

Lemma scanArg_snoc : forall tmp pLvl arg rest,
  scanArg pLvl tmp = (arg, 0, rest) ->
  scanArg pLvl (tmp ++ [op]) = (arg, 0, rest ++ [op]).
Proof.
  induction tmp as [| c tmp IH]; intros pLvl arg rest E; simpl in *.
  - injection E as <- -> <-. simpl. reflexivity.
  - destruct (pLvl =? 0) eqn:E0.
    + injection E as <- E1 <-. now rewrite E1.
    + destruct (scanArg (nest pLvl c) tmp) as [[a p'] r] eqn:E1.
      injection E as <- -> <-.
      now rewrite (IH _ _ _ E1).
Qed.

Lemma scanGroup_snoc : forall tmp pLvl sub rest,
  1 <= pLvl ->
  scanGroup pLvl tmp = (sub, 0, rest) ->
  scanGroup pLvl (tmp ++ [op]) = (sub, 0, rest ++ [op]).
Proof.
  induction tmp as [| c tmp IH]; intros pLvl sub rest Hp E.
  - simpl in E. injection E as <- -> <-. lia.
  - cbn [app scanGroup] in *.
    destruct (nest pLvl c =? 0) eqn:E0.
    + now injection E as <- <- <-.
    + destruct (scanGroup (nest pLvl c) tmp) as [[a p'] r] eqn:E1.
      injection E as <- -> <-.
      apply Nat.eqb_neq in E0.
      assert (Hn : 1 <= nest pLvl c) by lia.
      now rewrite (IH _ _ _ Hn E1).
Qed.

End OperatorChar.

(** *** The blocks of [nameToken] and of [groupOrNumber] by name *)

Section NamedBlocks.

Variable m : libm.
Variable ev : list ascii -> outcome.
Variable errorFlag : bool.

(** Lines 540-578: a function call.  [tmp1] is the text after the opening
    parenthesis. *)
Definition functionToken (vfStr tmp1 : list ascii) (st : locals) : ctl :=
  let '(funcArg, pLvl, tmp2) := scanArg 1 tmp1 in
  if 1024 <=? length funcArg then Return Undefined
  else if negb (pLvl =? 0) then Return (Fail UnterminatedGroup)
  else
    match ev funcArg with
    | Done argVal =>
        if errorFlag then Return (Done 0)
        else
          match doFunc m vfStr argVal with
          | Some v => pushToken v (setPtr tmp2 st)
          | None => Return (Fail UnknownFunction)
          end
    | o => Return o
    end.

(** Lines 579-598: a constant.  [tmp] is the text after the name. *)
Definition constantToken (vfStr tmp : list ascii) (st : locals) : ctl :=
  let constVal := getConst vfStr in
  if PrimFloat.eqb constVal 0 then Return (Fail UnknownIdentifier)
  else pushToken constVal (setPtr tmp st).

(** Lines 600-610: what follows a name must be an operator; at the end of
    the text the iteration is over. *)
Definition afterName (st : locals) : ctl :=
  match ptr st with
  | c :: _ => if negb (isOper c) then Return (Fail ExpectedOperator) else Go st
  | [] => Continue st
  end.

(** Lines 656-660: after a group, at the end of the text the iteration is
    over. *)
Definition afterGroup (st : locals) : ctl :=
  if errorFlag then Return (Done 0)
  else
    match ptr st with
    | [] => Continue st
    | _ :: _ => Go st
    end.

(** Lines 616-660: a subexpression.  [tmp] is the text after the opening
    parenthesis. *)
Definition groupToken (tmp : list ascii) (st : locals) : ctl :=
  let '(subExpr, pLvl, rest) := scanGroup 1 tmp in
  if negb (pLvl =? 0) then Return (Fail UnterminatedGroup)
  else if 4096 <=? length subExpr then Return Undefined
  else
    match ev subExpr with
    | Done v => andThen (pushToken v (setPtr rest st)) afterGroup
    | o => Return o
    end.

Lemma nameToken_blocks st :
  nameToken m ev errorFlag st
  = match ptr st with
    | c :: _ =>
        if isAlpha c then
          let '(vfStr, tmp) := span isAlpha (ptr st) in
          if 256 <=? length vfStr then Return Undefined
          else
            andThen
              (match tmp with
               | c1 :: tmp1 =>
                   if openParen c1 then functionToken vfStr tmp1 st
                   else constantToken vfStr tmp st
               | [] => constantToken vfStr tmp st
               end)
              afterName
        else Go st
    | [] => Go st
    end.
Proof. reflexivity. Qed.

Lemma groupOrNumber_blocks st :
  groupOrNumber ev errorFlag st
  = match ptr st with
    | c :: tmp =>
        if openParen c then groupToken tmp st
        else if isNumeric c then numberToken st
        else Go st
    | [] => Go st
    end.
Proof. reflexivity. Qed.

End NamedBlocks.

(** *** The blocks of an iteration with an operator appended *)

Section Blocks.

Variable m : libm.
Variable ev : list ascii -> outcome.
Variable op : ascii.
Hypothesis Hop : isOper op = true.

Lemma pushToken_append v q st :
  pushToken v (setPtr (q ++ [op]) (appendChar op st))
  = match pushToken v (setPtr q st) with
    | Go st' => Go (appendChar op st')
    | c => c
    end.
Proof.
  unfold pushToken, appendChar, setPtr. cbn [numTokens ptr tokens operators].
  now destruct (50 <=? numTokens st).
Qed.

Lemma afterName_append st' :
  afterName (appendChar op st')
  = match afterName st' with
    | Go s | Continue s => Go (appendChar op s)
    | Return o => Return o
    end.
Proof.
  unfold afterName.
  replace (ptr (appendChar op st')) with (ptr st' ++ [op]) by reflexivity.
  destruct (ptr st') as [| c q]; cbn [app]; [now rewrite Hop |].
  now destruct (negb (isOper c)).
Qed.

Lemma constantToken_append vfStr tmp st st' :
  constantToken vfStr tmp st = Go st' ->
  constantToken vfStr (tmp ++ [op]) (appendChar op st) = Go (appendChar op st').
Proof.
  unfold constantToken. destruct (PrimFloat.eqb (getConst vfStr) 0); [discriminate |].
  rewrite pushToken_append. now intros ->.
Qed.

Lemma functionToken_append vfStr tmp1 st st' :
  functionToken m ev false vfStr tmp1 st = Go st' ->
  functionToken m ev false vfStr (tmp1 ++ [op]) (appendChar op st) = Go (appendChar op st').
Proof.
  unfold functionToken.
  destruct (scanArg 1 tmp1) as [[funcArg pLvl] tmp2] eqn:Es.
  destruct (1024 <=? length funcArg) eqn:El; [discriminate |].
  destruct (pLvl =? 0) eqn:Ep0; cbn [negb]; [| discriminate].
  apply Nat.eqb_eq in Ep0. subst pLvl.
  rewrite (scanArg_snoc op _ _ _ _ Es), El. cbn [Nat.eqb negb].
  destruct (ev funcArg); try discriminate.
  destruct (doFunc m vfStr v); [| discriminate].
  rewrite pushToken_append. now intros ->.
Qed.

Lemma constantToken_not_Continue vfStr tmp st s : constantToken vfStr tmp st <> Continue s.
Proof.
  unfold constantToken. destruct (PrimFloat.eqb (getConst vfStr) 0); [discriminate |].
  apply pushToken_not_Continue.
Qed.

Lemma functionToken_not_Continue vfStr tmp1 st s :
  functionToken m ev false vfStr tmp1 st <> Continue s.
Proof.
  unfold functionToken. repeat case_match; try discriminate. apply pushToken_not_Continue.
Qed.

Lemma nameToken_append st st1 :
  stepped (nameToken m ev false st) st1 ->
  nameToken m ev false (appendChar op st) = Go (appendChar op st1).
Proof.
  unfold stepped. rewrite !nameToken_blocks.
  replace (ptr (appendChar op st)) with (ptr st ++ [op]) by reflexivity.
  destruct (ptr st) as [| c p] eqn:Ep.
  { cbn [app]. rewrite (oper_not_alpha op Hop). now intros [[= <-] | [=]]. }
  cbn [app]. destruct (isAlpha c) eqn:Ec; [| now intros [[= <-] | [=]]].
  change (c :: p ++ [op]) with ((c :: p) ++ [op]).
  rewrite (span_snoc isAlpha op (c :: p) (oper_not_alpha op Hop)).
  destruct (span isAlpha (c :: p)) as [vfStr tmp]. cbn [fst snd].
  destruct (256 <=? length vfStr); [intros [|]; discriminate |].
  assert (K : forall tok tok' : ctl,
             (forall s, tok <> Continue s) ->
             (forall st', tok = Go st' -> tok' = Go (appendChar op st')) ->
             stepped (andThen tok (afterName)) st1 ->
             andThen tok' afterName = Go (appendChar op st1)).
  { intros tok tok' Hnc Htok. unfold stepped.
    destruct tok as [st' | st' | o]; cbn [andThen];
      [| now destruct (Hnc st') | intros [|]; discriminate].
    rewrite (Htok st' eq_refl). cbn [andThen]. rewrite afterName_append.
    intros [-> | ->]; reflexivity. }
  destruct tmp as [| c1 tmp1]; cbn [app].
  - rewrite (oper_not_open op Hop).
    apply K; [intros s; apply constantToken_not_Continue |]. intros st'.
    apply (constantToken_append vfStr []).
  - destruct (openParen c1); apply K.
    + intros s. apply functionToken_not_Continue.
    + intros st'. apply functionToken_append.
    + intros s. apply constantToken_not_Continue.
    + intros st'. apply (constantToken_append vfStr (c1 :: tmp1)).
Qed.

Lemma numberToken_append st :
  ptr st <> [] ->
  numberToken (appendChar op st)
  = match numberToken st with
    | Go s => Go (appendChar op s)
    | c => c
    end.
Proof.
  intros Hp. unfold numberToken.
  replace (ptr (appendChar op st)) with (ptr st ++ [op]) by reflexivity.
  rewrite (readNumber_snoc op Hop _ Hp).
  destruct (readNumber (ptr st)) as [t rest]. cbn [fst snd].
  apply pushToken_append.
Qed.

Lemma afterGroup_append st' :
  afterGroup false (appendChar op st') = Go (appendChar op st').
Proof.
  unfold afterGroup.
  replace (ptr (appendChar op st')) with (ptr st' ++ [op]) by reflexivity.
  now destruct (ptr st').
Qed.

Lemma groupToken_append tmp st st2 :
  stepped (groupToken ev false tmp st) st2 ->
  groupToken ev false (tmp ++ [op]) (appendChar op st) = Go (appendChar op st2).
Proof.
  unfold stepped, groupToken.
  destruct (scanGroup 1 tmp) as [[sub pLvl] rest] eqn:Es.
  destruct (pLvl =? 0) eqn:Ep0; cbn [negb]; [| intros [|]; discriminate].
  apply Nat.eqb_eq in Ep0. subst pLvl.
  rewrite (scanGroup_snoc op _ _ _ _ (Nat.le_refl 1) Es). cbn [Nat.eqb negb].
  destruct (4096 <=? length sub); [intros [|]; discriminate |].
  destruct (ev sub); try (intros [|]; discriminate).
  rewrite pushToken_append.
  destruct (pushToken v (setPtr rest st)) as [st' | st' | o] eqn:Ev; cbn [andThen];
    [| now apply pushToken_not_Continue in Ev | intros [|]; discriminate].
  rewrite afterGroup_append. unfold afterGroup.
  destruct (ptr st'); now intros [[= <-] | [= <-]].
Qed.

Lemma groupOrNumber_append st st2 :
  ptr st <> [] ->
  stepped (groupOrNumber ev false st) st2 ->
  groupOrNumber ev false (appendChar op st) = Go (appendChar op st2).
Proof.
  intros Hp. rewrite !groupOrNumber_blocks.
  replace (ptr (appendChar op st)) with (ptr st ++ [op]) by reflexivity.
  destruct (ptr st) as [| c tmp] eqn:Ep; [congruence |]. cbn [app].
  destruct (openParen c); [apply groupToken_append |].
  destruct (isNumeric c).
  - rewrite numberToken_append by congruence.
    destruct (numberToken st) as [s | s | o] eqn:En; unfold stepped;
      [now intros [[= <-] | [=]] | | intros [|]; discriminate].
    now apply numberToken_not_Continue in En.
  - unfold stepped. now intros [[= <-] | [=]].
Qed.

Lemma grabOperator_append start st st3 :
  ptr st <> [] ->
  grabOperator start st = Go st3 ->
  grabOperator start (appendChar op st) = Go (appendChar op st3).
Proof.
  intros Hp. unfold grabOperator, appendChar, setPtr. cbn [ptr numTokens tokens operators].
  destruct (numTokens st - start =? 0); [discriminate |].
  destruct (ptr st) as [| c q]; [congruence |]. cbn [app].
  destruct (negb (isOper c)); [discriminate |].
  destruct (numTokens st <? 1); [discriminate |].
  now intros [= <-].
Qed.

End Blocks.

(** *** What is left to read is the end of what there was *)

Lemma lastChar_app k r : r <> [] -> lastChar (k ++ r) = lastChar r.
Proof.
  intros Hr. unfold lastChar. induction k as [| x k IH]; [reflexivity |].
  simpl. destruct (k ++ r) eqn:E; [| exact IH].
  now apply app_eq_nil in E as [_ ?].
Qed.

Lemma lastChar_suffix r s : r <> [] -> r `suffix_of` s -> lastChar s = lastChar r.
Proof. intros Hr [k ->]. now apply lastChar_app. Qed.

Lemma lastChar_forallb p s : s <> [] -> forallb p s = true -> p (lastChar s) = true.
Proof.
  induction s as [| c s IH]; [congruence |]. intros _ [Hc Hs]%andb_prop.
  destruct s as [| d s]; [exact Hc |].
  change (lastChar (c :: d :: s)) with (lastChar (d :: s)). now apply IH.
Qed.

Lemma span_parts p : forall s, s = fst (span p s) ++ snd (span p s).
Proof.
  induction s as [| c s IH]; simpl; [reflexivity |].
  destruct (p c); [| reflexivity].
  destruct (span p s) as [a b]. simpl in *. now rewrite <- IH.
Qed.

Lemma span_fst_all p : forall s, forallb p (fst (span p s)) = true.
Proof.
  induction s as [| c s IH]; simpl; [reflexivity |].
  destruct (p c) eqn:E; [| reflexivity].
  destruct (span p s) as [a b]. simpl in *. now rewrite E, IH.
Qed.

Lemma span_suffix p s : snd (span p s) `suffix_of` s.
Proof. exists (fst (span p s)). apply span_parts. Qed.

Lemma scanArg_suffix : forall tmp pLvl arg q rest,
  scanArg pLvl tmp = (arg, q, rest) -> rest `suffix_of` tmp.
Proof.
  induction tmp as [| c tmp IH]; intros pLvl arg q rest E; simpl in E.
  - now injection E as <- <- <-.
  - destruct (pLvl =? 0); [now injection E as <- <- <- |].
    destruct (scanArg (nest pLvl c) tmp) as [[a p'] r] eqn:E1.
    injection E as <- <- <-. apply suffix_cons_r. eauto.
Qed.

Lemma scanGroup_suffix : forall tmp pLvl sub q rest,
  scanGroup pLvl tmp = (sub, q, rest) -> rest `suffix_of` tmp.
Proof.
  induction tmp as [| c tmp IH]; intros pLvl sub q rest E; simpl in E.
  - now injection E as <- <- <-.
  - destruct (nest pLvl c =? 0); [injection E as <- <- <-; now apply suffix_cons_r |].
    destruct (scanGroup (nest pLvl c) tmp) as [[a p'] r] eqn:E1.
    injection E as <- <- <-. apply suffix_cons_r. eauto.
Qed.

Lemma sign_suffix s : snd (sign s) `suffix_of` s.
Proof.
  destruct s as [| c s]; simpl; [reflexivity |].
  destruct (Ascii.eqb c "-"); [now apply suffix_cons_r |].
  destruct (Ascii.eqb c "+"); [now apply suffix_cons_r | reflexivity].
Qed.

Lemma strtoll_suffix s : snd (strtoll s) `suffix_of` s.
Proof.
  unfold strtoll. pose proof (sign_suffix s) as Hs.
  destruct (sign s) as [neg s1]. cbn [snd] in Hs.
  assert (Hb : snd (match s1 with
                    | z :: x :: h :: _ =>
                        if Ascii.eqb z "0" && is_x x && is_digit 16 h
                        then (16%Z, skipn 2 s1)
                        else if Ascii.eqb z "0" then (8%Z, s1) else (10%Z, s1)
                    | z :: _ => if Ascii.eqb z "0" then (8%Z, s1) else (10%Z, s1)
                    | [] => (10%Z, s1)
                    end) `suffix_of` s1).
  { destruct s1 as [| z [| x [| h t]]]; simpl; try reflexivity.
    - now destruct (Ascii.eqb z "0").
    - now destruct (Ascii.eqb z "0").
    - destruct (Ascii.eqb z "0" && is_x x && is_digit 16 h); simpl.
      + now do 2 apply suffix_cons_r.
      + now destruct (Ascii.eqb z "0"). }
  destruct (match s1 with
            | z :: x :: h :: _ =>
                if Ascii.eqb z "0" && is_x x && is_digit 16 h
                then (16%Z, skipn 2 s1)
                else if Ascii.eqb z "0" then (8%Z, s1) else (10%Z, s1)
            | z :: _ => if Ascii.eqb z "0" then (8%Z, s1) else (10%Z, s1)
            | [] => (10%Z, s1)
            end) as [base s2]. cbn [snd] in Hb.
  pose proof (span_suffix (is_digit base) s2) as Hd.
  destruct (span (is_digit base) s2) as [ds rest]. cbn [snd] in Hd.
  destruct ds; cbn [snd]; [reflexivity |].
  etransitivity; [exact Hd |]. etransitivity; eassumption.
Qed.

Lemma mantissa_suffix base s : snd (mantissa base s) `suffix_of` s.
Proof.
  unfold mantissa. pose proof (span_suffix (is_digit base) s) as H1.
  destruct (span (is_digit base) s) as [ip s1]. cbn [snd] in H1.
  destruct s1 as [| c s2]; [exact H1 |].
  destruct (Ascii.eqb c "."); [| exact H1].
  pose proof (span_suffix (is_digit base) s2) as H2.
  destruct (span (is_digit base) s2) as [fp s3]. cbn [snd] in *.
  etransitivity; [exact H2 |]. etransitivity; [| exact H1]. now apply suffix_cons_r.
Qed.

Lemma exponent_suffix lo up s : snd (exponent lo up s) `suffix_of` s.
Proof.
  unfold exponent. destruct s as [| c s1]; [reflexivity |].
  destruct (Ascii.eqb c lo || Ascii.eqb c up); [| reflexivity].
  pose proof (sign_suffix s1) as H1. destruct (sign s1) as [neg s2]. cbn [snd] in H1.
  pose proof (span_suffix (is_digit 10) s2) as H2.
  destruct (span (is_digit 10) s2) as [ds rest]. cbn [snd] in H2.
  destruct ds; cbn [snd]; [reflexivity |].
  apply suffix_cons_r. etransitivity; eassumption.
Qed.

Lemma strtod_suffix s : snd (strtod s) `suffix_of` s.
Proof.
  unfold strtod. pose proof (sign_suffix s) as Hs.
  destruct (sign s) as [neg s1]. cbn [snd] in Hs.
  set (hex := match s1 with z :: x :: s2 => _ | _ => None end).
  assert (Hhex : forall r, hex = Some r -> snd r `suffix_of` s1).
  { subst hex. intros r. destruct s1 as [| z [| x s2]]; try discriminate.
    destruct (Ascii.eqb z "0" && is_x x); [| discriminate].
    pose proof (mantissa_suffix 16 s2) as Hm.
    destruct (mantissa 16 s2) as [[ip fp] s3]. cbn [snd] in Hm.
    destruct (ip ++ fp); [discriminate |].
    pose proof (exponent_suffix "p" "P" s3) as He.
    destruct (exponent "p" "P" s3) as [e rest]. cbn [snd] in He.
    intros [= <-]. cbn [snd].
    do 2 apply suffix_cons_r. etransitivity; eassumption. }
  destruct hex as [r |].
  - etransitivity; [apply Hhex; reflexivity | exact Hs].
  - pose proof (mantissa_suffix 10 s1) as Hm.
    destruct (mantissa 10 s1) as [[ip fp] s3]. cbn [snd] in Hm.
    destruct (ip ++ fp); [reflexivity |].
    pose proof (exponent_suffix "e" "E" s3) as He.
    destruct (exponent "e" "E" s3) as [e rest]. cbn [snd] in *.
    etransitivity; [exact He |]. etransitivity; eassumption.
Qed.

Lemma readNumber_suffix s : snd (readNumber s) `suffix_of` s.
Proof.
  unfold readNumber. destruct (span isNumeric s) as [run ?].
  destruct (existsb (Ascii.eqb ".") run); [apply strtod_suffix |].
  pose proof (strtoll_suffix s) as H. now destruct (strtoll s).
Qed.

Lemma scanArg_closed : forall tmp pLvl arg,
  1 <= pLvl -> scanArg pLvl tmp = (arg, 0, []) ->
  tmp <> [] /\ closeParen (lastChar tmp) = true.
Proof.
  induction tmp as [| c tmp IH]; intros pLvl arg Hp E; simpl in E.
  - injection E as _ ->. lia.
  - replace (pLvl =? 0) with false in E by (symmetry; apply Nat.eqb_neq; lia).
    destruct (scanArg (nest pLvl c) tmp) as [[a p'] r] eqn:E1.
    injection E as _ -> ->. split; [discriminate |].
    destruct (Nat.eq_dec (nest pLvl c) 0) as [E0 | E0].
    + rewrite E0 in E1. destruct tmp as [| d tmp]; simpl in E1; [| discriminate].
      unfold lastChar. simpl. unfold nest in E0.
      destruct (closeParen c); [reflexivity |]. destruct (openParen c); lia.
    + destruct (IH (nest pLvl c) a ltac:(lia) E1) as [Hne Hc].
      destruct tmp as [| d tmp]; [congruence |]. exact Hc.
Qed.

Section Suffix.

Variable m : libm.
Variable ev : list ascii -> outcome.
Variable errorFlag : bool.

Lemma constantToken_ptr vfStr tmp st st' :
  constantToken vfStr tmp st = Go st' -> ptr st' = tmp.
Proof.
  unfold constantToken. destruct (PrimFloat.eqb (getConst vfStr) 0); [discriminate |].
  now intros [_ ->]%pushToken_Go.
Qed.

Lemma functionToken_ptr vfStr tmp1 st st' :
  functionToken m ev errorFlag vfStr tmp1 st = Go st' ->
  exists arg, scanArg 1 tmp1 = (arg, 0, ptr st').
Proof.
  unfold functionToken.
  destruct (scanArg 1 tmp1) as [[funcArg pLvl] tmp2].
  destruct (1024 <=? length funcArg); [discriminate |].
  destruct (pLvl =? 0) eqn:E0; cbn [negb]; [| discriminate].
  apply Nat.eqb_eq in E0 as ->.
  destruct (ev funcArg); try discriminate.
  destruct errorFlag; [discriminate |].
  destruct (doFunc m vfStr v); [| discriminate].
  intros [_ ->]%pushToken_Go. eauto.
Qed.

Lemma afterName_inv st c st' :
  afterName st = c -> stepped c st' ->
  st' = st /\ (c = Continue st <-> ptr st = []).
Proof.
  unfold stepped, afterName. intros <-. destruct (ptr st) as [| a q].
  - intros [[=] | [= <-]]. split; [reflexivity |]. tauto.
  - destruct (negb (isOper a)); [intros [|]; discriminate |].
    intros [[= <-] | [=]]. split; [reflexivity |]. split; discriminate.
Qed.

(** How the token of a name was read. *)
Inductive nameRead (st st1 : locals) : Prop :=
| NoName : nameToken m ev errorFlag st = Go st -> st1 = st -> nameRead st st1
| Constant vfStr :
    ptr st = vfStr ++ ptr st1 -> vfStr <> [] -> forallb isAlpha vfStr = true ->
    nameRead st st1
| Call vfStr c tmp1 arg :
    ptr st = vfStr ++ c :: tmp1 -> scanArg 1 tmp1 = (arg, 0, ptr st1) ->
    nameRead st st1.

Lemma nameToken_inv st st1 :
  stepped (nameToken m ev errorFlag st) st1 -> nameRead st st1.
Proof.
  intros H. pose proof H as H0. revert H. rewrite nameToken_blocks.
  destruct (ptr st) as [| c p] eqn:Ep.
  { unfold stepped. intros [[= <-] | [=]]. apply NoName; [| reflexivity].
    rewrite nameToken_blocks. now rewrite Ep. }
  destruct (isAlpha c) eqn:Ec.
  2:{ unfold stepped. intros [[= <-] | [=]]. apply NoName; [| reflexivity].
      rewrite nameToken_blocks. now rewrite Ep, Ec. }
  pose proof (span_parts isAlpha (c :: p)) as Hparts.
  pose proof (span_fst_all isAlpha (c :: p)) as Hall.
  assert (Hne : fst (span isAlpha (c :: p)) <> []).
  { simpl. rewrite Ec. now destruct (span isAlpha p). }
  destruct (span isAlpha (c :: p)) as [vfStr tmp]. cbn [fst snd] in *.
  destruct (256 <=? length vfStr); [unfold stepped; intros [|]; discriminate |].
  assert (K : forall tok, stepped (andThen tok afterName) st1 ->
                          (forall s, tok <> Continue s) -> tok = Go st1).
  { intros tok Hs Hnc. destruct tok as [s | s | o]; cbn [andThen] in Hs.
    - now destruct (afterName_inv s _ st1 eq_refl Hs) as [-> _].
    - now destruct (Hnc s).
    - destruct Hs; discriminate. }
  destruct tmp as [| c1 tmp1].
  - intros Hs. apply K in Hs; [| intros s; apply constantToken_not_Continue].
    apply constantToken_ptr in Hs. apply (Constant st st1 vfStr); auto.
    now rewrite Hs, Ep.
  - destruct (openParen c1).
    + intros Hs. apply K in Hs.
      * apply functionToken_ptr in Hs as [arg Hs].
        apply (Call st st1 vfStr c1 tmp1 arg); [now rewrite Ep | exact Hs].
      * intros s E. revert E. unfold functionToken. repeat case_match; try discriminate.
        apply pushToken_not_Continue.
    + intros Hs. apply K in Hs; [| intros s; apply constantToken_not_Continue].
      apply constantToken_ptr in Hs. apply (Constant st st1 vfStr); auto.
      now rewrite Hs, Ep.
Qed.

Lemma nameToken_suffix st st1 :
  stepped (nameToken m ev errorFlag st) st1 -> ptr st1 `suffix_of` ptr st.
Proof.
  intros [_ -> | vfStr -> _ _ | vfStr c tmp1 arg -> Hs]%nameToken_inv.
  - reflexivity.
  - now apply suffix_app_r.
  - apply suffix_app_r, suffix_cons_r. eapply scanArg_suffix; eauto.
Qed.

(** A name that ends the text ends it with a letter or with the closing
    parenthesis of its argument. *)
Lemma nameToken_Continue_last st st1 :
  nameToken m ev errorFlag st = Continue st1 ->
  isAlpha (lastChar (ptr st)) = true \/ closeParen (lastChar (ptr st)) = true.
Proof.
  intros H. pose proof (nameToken_Continue m ev errorFlag st st1 H) as [_ Hp].
  assert (Hs : stepped (nameToken m ev errorFlag st) st1) by now right.
  apply nameToken_inv in Hs as [E _ | vfStr E Hne Hall | vfStr c tmp1 arg E Hs].
  - congruence.
  - left. rewrite E, Hp, app_nil_r. now apply lastChar_forallb.
  - right. rewrite Hp in Hs. apply scanArg_closed in Hs as [Hne Hc]; [| lia].
    rewrite E. change (vfStr ++ c :: tmp1) with (vfStr ++ [c] ++ tmp1).
    now rewrite app_assoc, lastChar_app.
Qed.

Lemma nameToken_Go_ptr st st1 :
  nameToken m ev errorFlag st = Go st1 -> ptr st <> [] -> ptr st1 <> [].
Proof.
  rewrite nameToken_blocks. destruct (ptr st) as [| c p] eqn:Ep; [congruence |]. intros H _.
  destruct (isAlpha c); [| injection H as <-; congruence].
  destruct (span isAlpha (c :: p)) as [vfStr tmp].
  destruct (256 <=? length vfStr); [discriminate |].
  revert H. match goal with |- andThen ?t _ = _ -> _ => destruct t as [s | s | o] end;
    cbn [andThen]; try discriminate.
  unfold afterName. destruct (ptr s) eqn:E; [discriminate |].
  destruct (negb (isOper a)); [discriminate |]. intros [= <-]. congruence.
Qed.

Lemma groupOrNumber_suffix st st2 :
  stepped (groupOrNumber ev errorFlag st) st2 -> ptr st2 `suffix_of` ptr st.
Proof.
  unfold stepped. rewrite groupOrNumber_blocks. destruct (ptr st) as [| c tmp] eqn:Ep.
  { intros [[= <-] | [=]]. now rewrite Ep. }
  destruct (openParen c).
  - unfold groupToken.
    destruct (scanGroup 1 tmp) as [[sub pLvl] rest] eqn:Es.
    destruct (negb (pLvl =? 0)); [intros [|]; discriminate |].
    destruct (4096 <=? length sub); [intros [|]; discriminate |].
    destruct (ev sub); try (intros [|]; discriminate).
    destruct (pushToken v (setPtr rest st)) as [s | s | o] eqn:Ev; cbn [andThen];
      [| now apply pushToken_not_Continue in Ev | intros [|]; discriminate].
    apply pushToken_Go in Ev as [_ ->]. unfold afterGroup.
    destruct errorFlag; [intros [|]; discriminate |]. cbn [ptr].
    intros H. assert (ptr st2 = rest) as <-.
    { change (ptr (setPtr rest st)) with rest in H.
      destruct rest; destruct H as [H | H]; inversion H; reflexivity. }
    apply suffix_cons_r. eapply scanGroup_suffix; eauto.
  - destruct (isNumeric c).
    + unfold numberToken. rewrite Ep.
      pose proof (readNumber_suffix (c :: tmp)) as Hr.
      destruct (readNumber (c :: tmp)) as [t rest]. cbn [snd] in Hr.
      intros [H | H]; [| now apply pushToken_not_Continue in H].
      apply pushToken_Go in H as [_ ->]. exact Hr.
    + intros [[= <-] | [=]]. now rewrite Ep.
Qed.

End Suffix.

(** *** The loop with an operator appended *)

Lemma grabOperator_ptr start st st3 :
  grabOperator start st = Go st3 ->
  (ptr st = [] /\ st3 = st) \/ (exists c, isOper c = true /\ ptr st = c :: ptr st3).
Proof.
  unfold grabOperator. destruct (numTokens st - start =? 0); [discriminate |].
  destruct (ptr st) as [| c q]; [intros [= <-]; now left |].
  destruct (isOper c) eqn:Ec; cbn [negb]; [| discriminate].
  destruct (numTokens st <? 1); [discriminate |].
  intros [= <-]. right. exists c. now split.
Qed.

Section Step.

Variable m : libm.
Variable ev : list ascii -> outcome.
Variable op : ascii.
Hypothesis Hop : isOper op = true.

(** The text at this level, which does not end with an operator; when the
    appended operator can start a number, nor with a name or a call. *)
Variable E : list ascii.
Hypothesis Hlast : isOper (lastChar E) = false.
Hypothesis Hminus :
  isNumeric op = true -> isAlpha (lastChar E) = false /\ closeParen (lastChar E) = false.

Lemma grabOperator_at_end start st :
  ptr st = [] -> start < numTokens st ->
  grabOperator start (appendChar op st) = Go (withTrailing op st).
Proof.
  intros Hp Hn. unfold grabOperator, appendChar, withTrailing, setPtr.
  cbn [ptr numTokens tokens operators].
  replace (numTokens st - start =? 0) with false by (symmetry; apply Nat.eqb_neq; lia).
  rewrite Hp. cbn [app]. rewrite Hop. cbn [negb].
  now replace (numTokens st <? 1) with false by (symmetry; apply Nat.ltb_ge; lia).
Qed.

(** At the appended operator alone nothing is read, unless it can start a
    number. *)
Lemma groupOrNumber_at_end st :
  ptr st = [] -> isNumeric op = false ->
  groupOrNumber ev false (appendChar op st) = Go (appendChar op st).
Proof.
  intros Hp Hn. rewrite groupOrNumber_blocks.
  replace (ptr (appendChar op st)) with (ptr st ++ [op]) by reflexivity.
  rewrite Hp. cbn [app]. now rewrite (oper_not_open op Hop), Hn.
Qed.

(** An iteration on the text with the operator appended does what it does
    without it, and when it has read the last token it stores the operator
    after it. *)
Lemma tokenStep_append st st' :
  ptr st <> [] -> ptr st `suffix_of` E -> numTokens st <= 50 ->
  stepped (tokenStep m ev false st) st' ->
  ptr st' `suffix_of` E
  /\ ((ptr st' <> []
       /\ tokenStep m ev false (appendChar op st) = Go (appendChar op st'))
      \/ (ptr st' = []
          /\ tokenStep m ev false (appendChar op st) = Go (withTrailing op st'))).
Proof.
  intros Hp Hsuf Hn. unfold stepped, tokenStep.
  change (numTokens (appendChar op st)) with (numTokens st).
  destruct (50 <=? numTokens st); [intros [|]; discriminate |].
  destruct (nameToken m ev false st) as [st1 | st1 | o] eqn:E1; cbn [andThen];
    [| | intros [|]; discriminate].
  - rewrite (nameToken_append m ev op Hop st st1 (or_introl E1)). cbn [andThen].
    pose proof (nameToken_Go_ptr m ev false st st1 E1 Hp) as Hp1.
    pose proof (nameToken_suffix m ev false st st1 (or_introl E1)) as Hs1.
    assert (Hn1 : numTokens st <= numTokens st1 <= 50)
      by (apply nameToken_Go in E1 as [(? & ? & _) | (? & ? & _)]; lia).
    destruct (groupOrNumber ev false st1) as [st2 | st2 | o] eqn:E2; cbn [andThen];
      [| | intros [|]; discriminate].
    + rewrite (groupOrNumber_append ev op Hop st1 st2 Hp1 (or_introl E2)). cbn [andThen].
      pose proof (groupOrNumber_suffix ev false st1 st2 (or_introl E2)) as Hs2.
      assert (Hn2 : numTokens st1 <= numTokens st2)
        by (apply groupOrNumber_Go in E2 as [(? & ? & _) | (? & ? & _)]; lia).
      assert (Hsuf2 : ptr st2 `suffix_of` E)
        by (etransitivity; [exact Hs2 |]; etransitivity; eauto).
      intros [H | H]; [| now apply grabOperator_not_Continue in H].
      destruct (grabOperator_ptr _ _ _ H) as [[Hp2 ->] | (c & Hc & Hp2)].
      * split; [exact Hsuf2 |]. right. split; [exact Hp2 |].
        apply grabOperator_at_end; [exact Hp2 |].
        apply grabOperator_Go in H. lia.
      * assert (Hs3 : ptr st' `suffix_of` E).
        { etransitivity; [| exact Hsuf2]. rewrite Hp2. apply suffix_cons_r. reflexivity. }
        split; [exact Hs3 |]. left.
        assert (Hne2 : ptr st2 <> []) by (rewrite Hp2; discriminate).
        split; [| now apply grabOperator_append].
        intros Hp3. rewrite Hp3 in Hp2.
        rewrite (lastChar_suffix (ptr st2) E Hne2 Hsuf2), Hp2 in Hlast.
        unfold lastChar in Hlast. simpl in Hlast. congruence.
    + apply groupOrNumber_Continue in E2 as Hc2. destruct Hc2 as [(Ha2 & _) Hp2].
      intros [[=] | [= <-]].
      rewrite (groupOrNumber_append ev op Hop st1 st2 Hp1 (or_intror E2)). cbn [andThen].
      split; [rewrite Hp2; apply suffix_nil |]. right. split; [exact Hp2 |].
      apply grabOperator_at_end; [exact Hp2 | lia].
  - apply nameToken_Continue in E1 as Hc1. destruct Hc1 as [(Ha1 & _) Hp1].
    intros [[=] | [= <-]].
    rewrite (nameToken_append m ev op Hop st st1 (or_intror E1)). cbn [andThen].
    assert (Hnum : isNumeric op = false).
    { destruct (isNumeric op) eqn:En; [| reflexivity].
      destruct (Hminus eq_refl) as [Ha Hc].
      rewrite (lastChar_suffix (ptr st) E Hp Hsuf) in Ha, Hc.
      destruct (nameToken_Continue_last m ev false st st1 E1); congruence. }
    rewrite (groupOrNumber_at_end st1 Hp1 Hnum). cbn [andThen].
    split; [rewrite Hp1; apply suffix_nil |]. right. split; [exact Hp1 |].
    apply grabOperator_at_end; [exact Hp1 | lia].
Qed.

Lemma tokenize_append left : forall st stE,
  ptr st <> [] -> ptr st `suffix_of` E -> numTokens st <= 50 ->
  tokenize m ev false left st = inr stE ->
  tokenize m ev false left (appendChar op st) = inr (withTrailing op stE).
Proof.
  induction left as [| left IH]; intros st stE Hp Hs Hn H.
  - cbn [tokenize] in H. destruct (ptr st); [congruence | discriminate].
  - cbn [tokenize] in H |- *.
    replace (ptr (appendChar op st)) with (ptr st ++ [op]) by reflexivity.
    destruct (ptr st) as [| c p] eqn:Ep; [congruence |]. cbn [app].
    assert (K : forall st', stepped (tokenStep m ev false st) st' ->
                tokenize m ev false left st' = inr stE ->
                match tokenStep m ev false (appendChar op st) with
                | Go s | Continue s => tokenize m ev false left s
                | Return o => inl o
                end = inr (withTrailing op stE)).
    { intros st' Hst H'.
      assert (Hn' : numTokens st' <= 50)
        by (pose proof (tokenStep_adds m ev false st st' Hst); lia).
      destruct (tokenStep_append st st') as [Hs' [[Hp' ->] | [Hp' ->]]]; auto.
      - now rewrite Ep.
      - now rewrite Ep.
      - rewrite (tokenize_end m ev left st' Hp') in H'. injection H' as <-.
        now apply tokenize_end. }
    destruct (tokenStep m ev false st) as [st' | st' | o] eqn:Et; [| | discriminate].
    + apply (K st'); [now left | exact H].
    + apply (K st'); [now right | exact H].
Qed.

Lemma tokenize_within left : forall st stE,
  numTokens st <= 50 -> length (tokens st) = 50 -> length (operators st) = 50 ->
  tokenize m ev false left st = inr stE ->
  numTokens stE <= 50 /\ length (tokens stE) = 50 /\ length (operators stE) = 50.
Proof.
  induction left as [| left IH]; intros st stE Hn Lt Lo H; cbn [tokenize] in H.
  - destruct (ptr st); [injection H as <-; auto | discriminate].
  - destruct (ptr st); [injection H as <-; auto |].
    assert (K : forall st', stepped (tokenStep m ev false st) st' ->
                tokenize m ev false left st' = inr stE ->
                numTokens stE <= 50 /\ length (tokens stE) = 50
                /\ length (operators stE) = 50).
    { intros st' Hst H'.
      pose proof (tokenStep_adds m ev false st st' Hst).
      destruct (tokenStep_lengths m ev false st st' Hn Hst) as [L1 L2].
      apply (IH st'); [lia | congruence | congruence | exact H']. }
    destruct (tokenStep m ev false st) as [st' | st' | o] eqn:Et; [| | discriminate].
    + apply (K st'); [now left | exact H].
    + apply (K st'); [now right | exact H].
Qed.

End Step.

(** With [errorFlag] clear the loop does not end the call with a value. *)
Section NoValue.

Variable m : libm.
Variable ev : list ascii -> outcome.

Ltac no_value :=
  repeat case_match; try discriminate; intros ?; simplify_eq;
  repeat match goal with
    | H : pushToken _ _ = Return _ |- _ => apply pushToken_Return in H; try discriminate H
    | H : numberToken _ = Return _ |- _ => apply numberToken_Return in H; try discriminate H
    end.

Lemma nameToken_no_value st v : nameToken m ev false st <> Return (Done v).
Proof. unfold nameToken, andThen. no_value. Qed.

Lemma groupOrNumber_no_value st v : groupOrNumber ev false st <> Return (Done v).
Proof. unfold groupOrNumber, andThen. no_value. Qed.

Lemma tokenStep_no_value st v : tokenStep m ev false st <> Return (Done v).
Proof.
  unfold tokenStep. destruct (50 <=? numTokens st); [discriminate |].
  destruct (nameToken m ev false st) as [st1 | st1 | o1] eqn:E1; cbn [andThen];
    [| discriminate | intros [= ->]; now apply nameToken_no_value in E1].
  destruct (groupOrNumber ev false st1) as [st2 | st2 | o2] eqn:E2; cbn [andThen];
    [| discriminate | intros [= ->]; now apply groupOrNumber_no_value in E2].
  intros [e [=]]%grabOperator_Return.
Qed.

Lemma tokenize_no_value left : forall st v, tokenize m ev false left st <> inl (Done v).
Proof.
  induction left as [| left IH]; intros st v; cbn [tokenize];
    (destruct (ptr st); [discriminate |]); [discriminate |].
  destruct (tokenStep m ev false st) as [st' | st' | o] eqn:Et; [apply IH | apply IH |].
  intros [= ->]. now apply tokenStep_no_value in Et.
Qed.

End NoValue.

(** *** The reduction does not read the operator after the last token *)

Lemma chain_of_lists : forall (ops : list ascii) (x : float) (tk : list float),
  length tk = length ops ->
  values (x, combine ops tk) = x :: tk /\ opers (x, combine ops tk) = ops.
Proof.
  unfold values, opers. cbn [fst snd].
  induction ops as [| o ops IH]; intros x [| t tk] L; try discriminate L.
  - now split.
  - injection L as L. destruct (IH t tk L) as [Hv Ho]. cbn [combine map fst snd].
    split; [do 2 f_equal; now injection Hv | now f_equal].
Qed.

Lemma holds_exists st :
  1 <= numTokens st <= 50 -> length (tokens st) = 50 -> length (operators st) = 50 ->
  exists c, holds st c.
Proof.
  intros Hn Lt Lo.
  destruct (take (numTokens st) (tokens st)) as [| x tk] eqn:Et.
  { apply (f_equal length) in Et. rewrite length_take in Et. simpl in Et. lia. }
  assert (L : length tk = length (take (numTokens st - 1) (operators st))).
  { apply (f_equal length) in Et. rewrite !length_take in *. simpl in Et. lia. }
  destruct (chain_of_lists _ x tk L) as [Hv Ho].
  eexists. unfold holds. rewrite Hv, Ho, Et.
  repeat split; auto; try lia.
  apply (f_equal length) in Et. rewrite length_take in Et. simpl in *. lia.
Qed.

Lemma holds_withTrailing op st c : holds st c -> holds (withTrailing op st) c.
Proof.
  unfold holds, withTrailing. cbn [tokens operators numTokens].
  intros (L1 & L2 & Hn & Hle & T & O).
  rewrite length_insert, take_insert. case_decide; [lia |]. auto 10.
Qed.

Lemma reduce_trailing m op st v :
  numTokens st <= 50 -> length (tokens st) = 50 -> length (operators st) = 50 ->
  reduce m st = Done v -> reduce m (withTrailing op st) = Done v.
Proof.
  intros Hn Lt Lo H.
  assert (H1 : 1 <= numTokens st).
  { destruct (numTokens st) eqn:E0; [| lia].
    unfold reduce, phase in H. rewrite E0 in H. discriminate. }
  destruct (holds_exists st) as [c Hc]; auto.
  rewrite (reduce_chain m st c Hc) in H.
  now rewrite (reduce_chain m _ c (holds_withTrailing op st c Hc)).
Qed.

Lemma cstring_snoc c : forall s,
  Ascii.eqb c NUL = false ->
  cstring (s ++ [c]) = cstring s \/ (cstring s = s /\ cstring (s ++ [c]) = s ++ [c]).
Proof.
  intros s Hc. induction s as [| d s IH]; simpl.
  - rewrite Hc. now right.
  - destruct (Ascii.eqb d NUL); [now left |].
    destruct IH as [-> | [E1 ->]]; [now left | right]. now rewrite E1.
Qed.

Lemma oper_numeric op : isOper op = true -> isNumeric op = true -> op = "-"%char.
Proof. intros [-> | [-> | [-> | [-> | [-> | ->]]]]]%isOper_cases; now intros. Qed.

(** One call of [evaluate] at any depth, with [self] for the calls on
    subexpressions and arguments. *)
Lemma evaluateBody_trailing m self depth (E : list ascii) (op : ascii) (v : float) :
  isOper op = true ->
  isOper (lastChar E) = false ->
  (op = "-"%char -> isAlpha (lastChar E) = false /\ closeParen (lastChar E) = false) ->
  evaluateBody m false self E depth = Done v ->
  evaluateBody m false self (E ++ [op]) depth = Done v.
Proof.
  intros Hop Hlast Hminus. unfold evaluateBody.
  destruct (length E <? 1) eqn:El; [discriminate |].
  apply Nat.ltb_ge in El.
  replace (length (E ++ [op]) <? 1) with false
    by (symmetry; apply Nat.ltb_ge; rewrite length_app; simpl; lia).
  destruct (1000 <? depth); [discriminate |].
  destruct (tokenize m (fun sub => self sub (depth + 1)) false runawayLimit (initLocals E))
    as [o | stE] eqn:Et; [intros ->; now apply tokenize_no_value in Et |].
  assert (Hne : E <> []) by (destruct E; simpl in El; [lia | discriminate]).
  change (initLocals (E ++ [op])) with (appendChar op (initLocals E)).
  set (ev := fun sub => self sub (depth + 1)) in *.
  rewrite (tokenize_append m ev op Hop E Hlast
             (fun Hn => Hminus (oper_numeric op Hop Hn)) runawayLimit
             (initLocals E) stE Hne (reflexivity _) (Nat.le_0_l 50) Et).
  destruct (tokenize_within m ev runawayLimit (initLocals E) stE) as (Hn & Lt & Lo);
    [apply Nat.le_0_l | reflexivity | reflexivity | exact Et |].
  now apply reduce_trailing.
Qed.




